(** * AMGCL: aggregation coarsening, the ViennaCL level and its cycles,
      the Eigen direct-solver wrapper and the SCOTCH repartitioning test.

    A shallow embedding of
      - amgcl/coarsening/aggregation.hpp
      - amgcl/level_viennacl.hpp
      - amgcl/solver/eigen.hpp
      - amgcl/mpi/repartition/scotch.hpp
    followed by the properties proved about it. *)

From Stdlib Require Import List Bool Arith PeanoNat ZArith QArith Qfield Lia.
Import ListNotations.

Set Implicit Arguments.
Close Scope Q_scope.

(* ================================================================= *)
(** * Scalars *)

(** [value_t] is the floating-point template parameter of the source.  The
    model takes exact rationals for the finite values and one absorbing
    element [NaN] for every value that is not finite: a division whose
    divisor is zero does not trap in the source, it yields an infinity or a
    NaN and the computation goes on; here it yields [NaN].  Rounding and
    overflow are outside the model. *)
Inductive value_t : Type :=
| Fin (q : Q)
| NaN.

Definition zero : value_t := Fin 0%Q.
Definition one : value_t := Fin 1%Q.

Definition lift2 (op : Q -> Q -> Q) (a b : value_t) : value_t :=
  match a, b with
  | Fin p, Fin q => Fin (op p q)
  | _, _ => NaN
  end.

Definition vplus : value_t -> value_t -> value_t := lift2 Qplus.
Definition vminus : value_t -> value_t -> value_t := lift2 Qminus.
Definition vtimes : value_t -> value_t -> value_t := lift2 Qmult.

(** [a / b]: not finite when the divisor is zero. *)
Definition vdivide (a b : value_t) : value_t :=
  match a, b with
  | Fin p, Fin q => if Qeq_bool q 0%Q then NaN else Fin (p / q)%Q
  | _, _ => NaN
  end.

Definition is_finite (a : value_t) : bool :=
  match a with Fin _ => true | NaN => false end.

Definition is_zero (a : value_t) : bool :=
  match a with Fin q => Qeq_bool q 0%Q | NaN => false end.

(** Equality of scalars up to the representation of a rational. *)
Definition veq (a b : value_t) : Prop :=
  match a, b with
  | Fin p, Fin q => Qeq p q
  | NaN, NaN => True
  | _, _ => False
  end.

(* ================================================================= *)
(** * Vectors *)

Definition vector : Type := list value_t.

(** Element-wise combination.  The result has the size of the first operand;
    the source requires both sizes to agree, and where they do not the model
    reads the missing entries of the second operand as zero. *)
Fixpoint zip_with (op : value_t -> value_t -> value_t) (x y : vector) : vector :=
  match x with
  | [] => []
  | a :: x' => op a (hd zero y) :: zip_with op x' (tl y)
  end.

Definition vec_add : vector -> vector -> vector := zip_with vplus.
Definition vec_sub : vector -> vector -> vector := zip_with vminus.
Definition element_div : vector -> vector -> vector := zip_with vdivide.
Definition vec_scale (a : value_t) (x : vector) : vector := map (vtimes a) x.

Definition inner_prod (x y : vector) : value_t :=
  fold_left vplus (zip_with vtimes x y) zero.

(** [v.clear()] of a ViennaCL vector: every entry set to zero, size kept. *)
Definition clear (x : vector) : vector := map (fun _ => zero) x.

(** A vector constructed with a size: that many zeros. *)
Definition zeros (n : nat) : vector := repeat zero n.

Definition all_finite (x : vector) : bool := forallb is_finite x.

(** A scalar that is zero or not finite, and a vector of such scalars. *)
Definition null_or_nan (a : value_t) : bool :=
  match a with Fin q => Qeq_bool q 0%Q | NaN => true end.

Definition all_null (x : vector) : bool := forallb null_or_nan x.

(* ================================================================= *)
(** * Row-compressed sparse matrices *)

Record crs : Type := {
  nrows : nat;
  ncols : nat;
  ptr : list nat;
  col : list nat;
  val : vector
}.

(** A default-constructed matrix. *)
Definition empty_matrix : crs :=
  {| nrows := 0; ncols := 0; ptr := []; col := []; val := [] |}.

Definition slice {T : Type} (l : list T) (b e : nat) : list T :=
  firstn (e - b) (skipn b l).

(** The stored entries of row [i]: (column, coefficient) for the positions
    [ptr[i] .. ptr[i+1]). *)
Definition row (M : crs) (i : nat) : list (nat * value_t) :=
  let b := nth i (ptr M) 0 in
  let e := nth (S i) (ptr M) 0 in
  combine (slice (col M) b e) (slice (val M) b e).

(** The total number of stored entries, [ptr[nrows]]. *)
Definition nonzeros (M : crs) : nat := nth (nrows M) (ptr M) 0.

(** The coefficient at (i, j): the entry of row [i] stored for column [j],
    zero when the row stores none.  By the data-model invariant a row holds
    no column twice. *)
Definition entry (M : crs) (i j : nat) : value_t :=
  match find (fun cv => fst cv =? j) (row M i) with
  | Some cv => snd cv
  | None => zero
  end.

(** Modelled from the spec: the backend's sparse matrix-vector product
    (viennacl::linalg::prod) is not among the files embedded here.  Entry [i]
    of the result is the sum over the stored entries of row [i] of
    coefficient times the addressed entry of [x]. *)
Definition prod (M : crs) (x : vector) : vector :=
  map (fun i =>
         fold_left (fun acc cv => vplus acc (vtimes (snd cv) (nth (fst cv) x zero)))
                   (row M i) zero)
      (seq 0 (nrows M)).

(** Row offsets of a matrix given row by row: 0, then the running sums of
    the row lengths. *)
Fixpoint offsets (start : nat) (lens : list nat) : list nat :=
  match lens with
  | [] => [start]
  | k :: lens' => start :: offsets (start + k) lens'
  end.

Definition of_rows (nr nc : nat) (rs : list (list (nat * value_t))) : crs :=
  {| nrows := nr;
     ncols := nc;
     ptr := offsets 0 (map (@length _) rs);
     col := map fst (concat rs);
     val := map snd (concat rs) |}.

(** Row [j] of the transpose: for the rows [i] of [M] in order, the entries
    that [M] stores in column [j], now addressed by [i]. *)
Definition transpose_row (M : crs) (j : nat) : list (nat * value_t) :=
  flat_map (fun i => map (fun cv => (i, snd cv))
                         (filter (fun cv => fst cv =? j) (row M i)))
           (seq 0 (nrows M)).

(** Modelled from the spec: the backend's sparse matrix transpose
    (amgcl/backend/builtin.hpp) is not among the files embedded here.  The
    transpose has one row per column of [M]. *)
Definition transpose (M : crs) : crs :=
  of_rows (ncols M) (nrows M) (map (transpose_row M) (seq 0 (ncols M))).

(** Modelled from the spec: [diagonal] (amgcl/spmat.hpp) is not among the
    files embedded here.  The cached diagonal of the matrix, one entry per
    row. *)
Definition diagonal (M : crs) : vector :=
  map (fun i => entry M i i) (seq 0 (nrows M)).

(** [acc[j] += v] on a row under construction. *)
Fixpoint accumulate (acc : list (nat * value_t)) (j : nat) (v : value_t)
  : list (nat * value_t) :=
  match acc with
  | [] => [(j, v)]
  | (c, w) :: acc' =>
      if c =? j then (c, vplus w v) :: acc' else (c, w) :: accumulate acc' j v
  end.

Definition product_row (M N : crs) (i : nat) : list (nat * value_t) :=
  fold_left
    (fun acc ka =>
       fold_left (fun acc jb => accumulate acc (fst jb) (vtimes (snd ka) (snd jb)))
                 (row N (fst ka)) acc)
    (row M i) [].

(** Modelled from the spec: the backend's sparse matrix-matrix product
    (amgcl/backend/builtin.hpp) is not among the files embedded here.  Row [i]
    of the product gathers, over the entries (k, a) of row [i] of [M] and the
    entries (j, b) of row [k] of [N], the terms a b by column [j]. *)
Definition product (M N : crs) : crs :=
  of_rows (nrows M) (ncols N) (map (product_row M N) (seq 0 (nrows M))).

(** Every stored coefficient multiplied by [s]. *)
Definition scale_values (s : value_t) (M : crs) : crs :=
  {| nrows := nrows M; ncols := ncols M; ptr := ptr M; col := col M;
     val := vec_scale s (val M) |}.

(* ================================================================= *)
(** * Outcomes of operations that may raise *)

Inductive error : Type :=
| ConfigurationError
| DegenerateInputError
| CollaboratorError.

Inductive outcome (T : Type) : Type :=
| Returns (v : T)
| Throws (e : error).

Arguments Returns {T} v.
Arguments Throws {T} e.

(* ================================================================= *)
(** * amgcl/coarsening/aggregation.hpp *)

(** What the [Aggregates] template parameter exposes once constructed: the
    number of aggregates and, per fine row, the aggregate it belongs to or a
    negative value for a row left out of every aggregate. *)
Module Aggregates.
Record t : Type := { count : nat; id : list Z }.
Record params : Type := { eps_strong : value_t }.
End Aggregates.

Module aggregation.

Record params : Type := {
  aggr : Aggregates.params;
  over_interp : value_t
}.

(** [params()]: over_interp(1.5f), aggr.eps_strong = 0.1f. *)
Definition default_params : params :=
  {| aggr := {| Aggregates.eps_strong := Fin (1 # 10)%Q |};
     over_interp := Fin (3 # 2)%Q |}.

(** The loop that fills [P->ptr] and [P->col]: [ptr] and [col] are the
    vectors as they stand, [rows] the indices still to visit.  Reading
    [aggr.id] beyond its end is undefined in the source: [None]. *)
Fixpoint fill_P (ids : list Z) (rows : list nat) (ptr col : list nat)
  : option (list nat * list nat) :=
  match rows with
  | [] => Some (ptr, col)
  | i :: rows' =>
      match nth_error ids i with
      | None => None
      | Some a =>
          let col' := if (0 <=? a)%Z then col ++ [Z.to_nat a] else col in
          fill_P ids rows' (ptr ++ [length col']) col'
      end
  end.

(** The row of the prolongation that belongs to a fine row with aggregate
    [a]: one coefficient 1 in column [a], or nothing for a row left out. *)
Definition injection_row (a : Z) : list (nat * value_t) :=
  if (0 <=? a)%Z then [(Z.to_nat a, one)] else [].

(** The number of entries of that row. *)
Definition width (a : Z) : nat := if (0 <=? a)%Z then 1 else 0.

Section Coarsening.
(** The aggregation strategy: [Aggregates aggr(A, prm.aggr)]. *)
Variable make_aggregates : crs -> Aggregates.params -> Aggregates.t.

Definition transfer_operators (A : crs) (prm : params) : option (crs * crs) :=
  let n := nrows A in
  let aggr := make_aggregates A (aggr prm) in
  match fill_P (Aggregates.id aggr) (seq 0 n) [0] [] with
  | None => None
  | Some (ptr, col) =>
      let P := {| nrows := n;
                  ncols := Aggregates.count aggr;
                  ptr := ptr;
                  col := col;
                  val := repeat one n |} in
      let R := transpose P in
      Some (P, R)
  end.

(** Modelled from the spec: detail::scaled_galerkin
    (amgcl/coarsening/detail/scaled_galerkin.hpp) is not among the files
    embedded here.  The triple product R (A P) by sparse products, then
    every entry scaled by [s]. *)
Definition scaled_galerkin (A P R : crs) (s : value_t) : crs :=
  scale_values s (product R (product A P)).

Definition coarse_operator (A P R : crs) (prm : params) : outcome crs :=
  Returns (scaled_galerkin A P R (vdivide one (over_interp prm))).
End Coarsening.

End aggregation.

(* ================================================================= *)
(** * amgcl/level_viennacl.hpp *)

(** amgcl::level::params (amgcl/level_params.hpp): the members the level
    reads, all [unsigned]. *)
Module level.
Record params : Type := {
  npre : nat;
  npost : nat;
  ncycle : nat;
  kcycle : nat
}.
End level.

(** [for (unsigned i = 0; i < n; ++i) body]. *)
Definition for_loop {S : Type} (n : nat) (body : nat -> S -> S) (s : S) : S :=
  fold_left (fun acc i => body i acc) (seq 0 n) s.

Module ViennaCL.

(** One level.  [A], [P], [R], [Ainv] and [d] are fixed once the level is
    built; [u], [f], [t] and [cg] are the [mutable] work vectors, here with
    the contents the constructor gives them. *)
Record instance : Type := {
  A : crs;
  P : crs;
  R : crs;
  Ainv : crs;
  d : vector;
  u : vector;
  f : vector;
  t : vector;
  cg : list vector
}.

(** [instance(a, p, r, prm, nlevel)]: a level with transfer operators. *)
Definition make_level (a p r : crs) (prm : level.params) (nlevel : nat) : instance :=
  let sized := negb (nlevel =? 0) in
  let with_cg := sized && negb (level.kcycle prm =? 0)
                       && (nlevel mod level.kcycle prm =? 0) in
  {| A := a; P := p; R := r; Ainv := empty_matrix;
     d := diagonal a;
     u := if sized then zeros (nrows a) else [];
     f := if sized then zeros (nrows a) else [];
     t := zeros (nrows a);
     cg := repeat (if with_cg then zeros (nrows a) else []) 4 |}.

(** [instance(a, ai, prm, nlevel)]: the coarsest level, with the inverse. *)
Definition make_coarsest (a ai : crs) (prm : level.params) (nlevel : nat) : instance :=
  {| A := a; P := empty_matrix; R := empty_matrix; Ainv := ai;
     d := diagonal a;
     u := zeros (nrows a);
     f := zeros (nrows a);
     t := zeros (nrows a);
     cg := repeat [] 4 |}.

(** The vectors a cycle can name: those of the caller, and the work vectors
    of the level with a given index.  [rhs] and [x] are passed by reference
    in the source, and the recursive calls pass work vectors of the next
    level for them. *)
Inductive vref : Type :=
| caller (k : nat)
| lvl_u (l : nat)
| lvl_f (l : nat)
| lvl_t (l : nat)
| lvl_cg (l k : nat).

Definition vref_eqb (a b : vref) : bool :=
  match a, b with
  | caller i, caller j => i =? j
  | lvl_u i, lvl_u j => i =? j
  | lvl_f i, lvl_f j => i =? j
  | lvl_t i, lvl_t j => i =? j
  | lvl_cg i k, lvl_cg j m => (i =? j) && (k =? m)
  | _, _ => false
  end.

Definition store : Type := vref -> vector.

(** [dst = v]. *)
Definition assign (dst : vref) (v : vector) (st : store) : store :=
  fun r => if vref_eqb r dst then v else st r.

(** The store in which the levels of [h] hold what their constructors left
    and the caller holds [rhs] and [x]. *)
Definition load (h : list instance) (rhs x : vector) : store :=
  fun r =>
    match r with
    | caller 0 => rhs
    | caller 1 => x
    | caller _ => []
    | lvl_u l => match nth_error h l with Some L => u L | None => [] end
    | lvl_f l => match nth_error h l with Some L => f L | None => [] end
    | lvl_t l => match nth_error h l with Some L => t L | None => [] end
    | lvl_cg l k => match nth_error h l with Some L => nth k (cg L) [] | None => [] end
    end.

(** The damping factor 0.72. *)
Definition omega : value_t := Fin (18 # 25)%Q.

(** [lvl->relax(rhs, x)] for the level [L] stored at index [lvl]. *)
Definition relax (L : instance) (lvl : nat) (rhs x : vref) (st : store) : store :=
  let st := assign (lvl_t lvl) (prod (A L) (st x)) st in
  let st := assign (lvl_t lvl) (vec_sub (st rhs) (st (lvl_t lvl))) st in
  let st := assign (lvl_t lvl) (element_div (st (lvl_t lvl)) (d L)) st in
  assign x (vec_add (st x) (vec_scale omega (st (lvl_t lvl)))) st.

(** One pass of the loop of [kcycle].  [cyc] is [cycle(lvl, end, prm, ., .)];
    the scalars [rho1], [rho2] are carried with the store. *)
Definition kcycle_iter (cyc : vref -> vref -> store -> store)
    (L : instance) (lvl : nat) (x : vref) (iter : nat)
    (acc : value_t * value_t * store) : value_t * value_t * store :=
  let '(rho1, rho2, st) := acc in
  let r := lvl_cg lvl 0 in
  let s := lvl_cg lvl 1 in
  let p := lvl_cg lvl 2 in
  let q := lvl_cg lvl 3 in
  let st := assign s (clear (st s)) st in
  let st := cyc r s st in
  let rho2 := rho1 in
  let rho1 := inner_prod (st r) (st s) in
  let st := if negb (iter =? 0)
            then assign p (vec_add (st s) (vec_scale (vdivide rho1 rho2) (st p))) st
            else assign p (st s) st in
  let st := assign q (prod (A L) (st p)) st in
  let alpha := vdivide rho1 (inner_prod (st q) (st p)) in
  let st := assign x (vec_add (st x) (vec_scale alpha (st p))) st in
  let st := assign (lvl_cg lvl 0) (vec_sub (st r) (vec_scale alpha (st q))) st in
  (rho1, rho2, st).

(** The body of [kcycle(lvl, end, prm, rhs, x)], the iterator [lvl] standing
    at [levels] (the levels from [lvl] to [end]). *)
Definition kcycle_with (cyc : vref -> vref -> store -> store)
    (levels : list instance) (lvl : nat) (rhs x : vref) (st : store) : store :=
  match levels with
  | [] => st
  | L :: rest =>
      match rest with
      | _ :: _ =>
          let st := assign (lvl_cg lvl 0) (st rhs) st in
          snd (for_loop 2 (kcycle_iter cyc L lvl x) (zero, zero, st))
      | [] => assign x (prod (Ainv L) (st rhs)) st
      end
  end.

(** One pass of the loop over [j] in [cycle], for the level [L] at index
    [lvl]; [descend] is the solve on the next level,
    [if (nxt->cg[0].size()) kcycle(nxt, ...) else cycle(nxt, ...)]. *)
Definition cycle_pass (descend : store -> store) (L : instance) (lvl : nat)
    (prm : level.params) (rhs x : vref) (st : store) : store :=
  let nxt := S lvl in
  let st := for_loop (level.npre prm) (fun _ => relax L lvl rhs x) st in
  let st := assign (lvl_t lvl) (prod (A L) (st x)) st in
  let st := assign (lvl_t lvl) (vec_sub (st rhs) (st (lvl_t lvl))) st in
  let st := assign (lvl_f nxt) (prod (R L) (st (lvl_t lvl))) st in
  let st := assign (lvl_u nxt) (clear (st (lvl_u nxt))) st in
  let st := descend st in
  let st := assign (lvl_t lvl) (prod (P L) (st (lvl_u nxt))) st in
  let st := assign x (vec_add (st x) (st (lvl_t lvl))) st in
  for_loop (level.npost prm) (fun _ => relax L lvl rhs x) st.

(** [cycle(lvl, end, prm, rhs, x)]: [levels] are the levels from the iterator
    [lvl] to [end], [lvl] also being the index of the first of them. *)
Fixpoint cycle (levels : list instance) (lvl : nat) (prm : level.params)
    (rhs x : vref) (st : store) {struct levels} : store :=
  match levels with
  | [] => st
  | L :: rest =>
      let nxt := S lvl in
      match rest with
      | _ :: _ =>
          for_loop (level.ncycle prm) (fun _ =>
            cycle_pass
              (fun st =>
                 if negb (length (st (lvl_cg nxt 0)) =? 0)
                 then kcycle_with (cycle rest nxt prm) rest nxt
                                  (lvl_f nxt) (lvl_u nxt) st
                 else cycle rest nxt prm (lvl_f nxt) (lvl_u nxt) st)
              L lvl prm rhs x) st
      | [] => assign x (prod (Ainv L) (st rhs)) st
      end
  end.

(** [kcycle(lvl, end, prm, rhs, x)]. *)
Definition kcycle (levels : list instance) (lvl : nat) (prm : level.params)
    (rhs x : vref) (st : store) : store :=
  kcycle_with (cycle levels lvl prm) levels lvl rhs x st.


(** [resid(rhs, x)]: the Euclidean norm is a square root; the model returns
    its square, the inner product of the residual with itself. *)
Definition resid_squared (L : instance) (lvl : nat) (rhs x : vref) (st : store)
  : value_t * store :=
  let st := assign (lvl_t lvl) (prod (A L) (st x)) st in
  let st := assign (lvl_t lvl) (vec_sub (st rhs) (st (lvl_t lvl))) st in
  (inner_prod (st (lvl_t lvl)) (st (lvl_t lvl)), st).

(* ----------------------------------------------------------------- *)
(** ** The cycles as the specification words them, on values *)

Fixpoint iterate {T : Type} (n : nat) (step : T -> T) (x : T) : T :=
  match n with
  | 0 => x
  | S k => iterate k step (step x)
  end.

(** One relaxation step: x + omega D^-1 (b - A x). *)
Definition relax_spec (L : instance) (b x : vector) : vector :=
  vec_add x (vec_scale omega (element_div (vec_sub b (prod (A L) x)) (d L))).

(** The K-cycle is configured for a level when the constructor sized its
    auxiliary vectors. *)
Definition kcycle_enabled (L : instance) : bool :=
  negb (length (nth 0 (cg L) []) =? 0).

(** What one inner iteration of the K-cycle carries to the next. *)
Record kstate : Type := {
  kx : vector;
  kr : vector;
  kp : vector;
  krho : value_t
}.

(** One inner iteration: [V] is one V-cycle application at this level. *)
Definition kcycle_step (V : vector -> vector -> vector) (L : instance)
    (first : bool) (k : kstate) : kstate :=
  let s := V (kr k) (zeros (nrows (A L))) in
  let rho1 := inner_prod (kr k) s in
  let p := if first then s
           else vec_add s (vec_scale (vdivide rho1 (krho k)) (kp k)) in
  let q := prod (A L) p in
  let alpha := vdivide rho1 (inner_prod q p) in
  {| kx := vec_add (kx k) (vec_scale alpha p);
     kr := vec_sub (kr k) (vec_scale alpha q);
     kp := p;
     krho := rho1 |}.

(** Exactly two inner iterations, the first with [p = s]. *)
Definition kcycle_spec (V : vector -> vector -> vector) (L : instance)
    (rhs x : vector) : kstate :=
  kcycle_step V L false
    (kcycle_step V L true {| kx := x; kr := rhs; kp := []; krho := zero |}).

(** The K-cycle entry point on values: the direct solve on the last level. *)
Definition ksolve_spec (V : vector -> vector -> vector) (levels : list instance)
    (rhs x : vector) : vector :=
  match levels with
  | [] => x
  | L :: rest =>
      match rest with
      | _ :: _ => kx (kcycle_spec V L rhs x)
      | [] => prod (Ainv L) rhs
      end
  end.

(** One pass of the V-cycle at level [L]: [solve] is the solve on the next
    level, [N] the next level. *)
Definition vcycle_pass (solve : vector -> vector -> vector) (L N : instance)
    (prm : level.params) (rhs x : vector) : vector :=
  let x := iterate (level.npre prm) (relax_spec L rhs) x in
  let residual := vec_sub rhs (prod (A L) x) in
  let coarse_rhs := prod (R L) residual in
  let correction := solve coarse_rhs (zeros (nrows (A N))) in
  let x := vec_add x (prod (P L) correction) in
  iterate (level.npost prm) (relax_spec L rhs) x.

Fixpoint vcycle_spec (levels : list instance) (prm : level.params)
    (rhs x : vector) {struct levels} : vector :=
  match levels with
  | [] => x
  | L :: rest =>
      match rest with
      | N :: _ =>
          iterate (level.ncycle prm)
            (vcycle_pass
               (if kcycle_enabled N
                then ksolve_spec (vcycle_spec rest prm) rest
                else vcycle_spec rest prm)
               L N prm rhs) x
      | [] => prod (Ainv L) rhs
      end
  end.

(* ----------------------------------------------------------------- *)
(** ** Well-formed hierarchies and stores *)

(** Dimensions fit from level to level, the last level holds an inverse of
    the size of its matrix, and the K-cycle vectors of a level are either
    not sized or sized by the rows of its matrix. *)
Fixpoint hierarchy_wf (levels : list instance) : Prop :=
  match levels with
  | [] => True
  | L :: rest =>
      (length (nth 0 (cg L) []) = 0 \/ length (nth 0 (cg L) []) = nrows (A L)) /\
      match rest with
      | N :: _ => nrows (R L) = nrows (A N) /\ hierarchy_wf rest
      | [] => nrows (Ainv L) = nrows (A L)
      end
  end.

(** The work vectors of [levels] (stored from index [lvl] on) have in [st]
    the sizes their constructors gave them. *)
Fixpoint work_sized (levels : list instance) (lvl : nat) (st : store) : Prop :=
  match levels with
  | [] => True
  | L :: rest =>
      length (st (lvl_u lvl)) = nrows (A L) /\
      length (st (lvl_cg lvl 0)) = length (nth 0 (cg L) []) /\
      (kcycle_enabled L = true -> length (st (lvl_cg lvl 1)) = nrows (A L)) /\
      work_sized rest (S lvl) st
  end.

(** The vectors that [cycle] at index [lvl] may write besides [x]: [t] of
    that level and every work vector of the levels below. *)
Definition owned_by_cycle (lvl : nat) (r : vref) : bool :=
  match r with
  | caller _ => false
  | lvl_t l => lvl <=? l
  | lvl_u l => lvl <? l
  | lvl_f l => lvl <? l
  | lvl_cg l _ => lvl <? l
  end.

(** The work vectors whose sizes [work_sized] speaks of, from index [k] on. *)
Definition sized_at (k : nat) (r : vref) : bool :=
  match r with
  | lvl_u l => k <=? l
  | lvl_cg l _ => k <=? l
  | _ => false
  end.

(** A level below the finest one as one of the two constructors leaves it. *)
Definition constructed (prm : level.params) (L : instance) : Prop :=
  (exists a p r nlevel, nlevel <> 0 /\ L = make_level a p r prm nlevel)
  \/ (exists a ai nlevel, L = make_coarsest a ai prm nlevel).

(** The same for [kcycle], which also writes [cg] of the level itself. *)
Definition owned_by_kcycle (lvl : nat) (r : vref) : bool :=
  match r with
  | lvl_cg l _ => lvl <=? l
  | _ => owned_by_cycle lvl r
  end.

End ViennaCL.

(* ================================================================= *)
(** * amgcl/solver/eigen.hpp *)

Module EigenSolver.

(** Eigen's status of a decomposition. *)
Inductive ComputationInfo : Type :=
| Success
| NumericalIssue
| NoConvergence
| InvalidInput.

(** The [Solver] template parameter, an Eigen direct solver: [compute]
    factorizes, [info] reports whether that succeeded, [solve] applies the
    factorization. *)
Class Solver (S : Type) : Type := {
  compute : crs -> S;
  info : S -> ComputationInfo;
  solve : S -> vector -> vector
}.

Record params : Type := {}.

Record t (S : Type) : Type := {
  n : nat;
  solver : S
}.

(** [EigenSolver(A, params)]: maps the arrays of [A] as an Eigen matrix and
    hands it to [S.compute]. *)
Definition make {S : Type} `{Solver S} (A : crs) (_ : params) : outcome (t S) :=
  Returns {| n := nrows A; solver := compute A |}.

(** [operator()(rhs, x)]: the first [n] entries of [x] are overwritten. *)
Definition apply {S : Type} `{Solver S} (E : t S) (rhs x : vector) : vector :=
  firstn (n E) (solve (solver E) (firstn (n E) rhs)) ++ skipn (n E) x.

(** A direct solver for diagonal systems: the factorization is the list of
    reciprocals of the diagonal, and it fails on a zero diagonal entry. *)
Record diagonal_lu : Type := {
  inverse_diagonal : vector;
  status : ComputationInfo
}.

#[global] Instance DiagonalSolver : Solver diagonal_lu := {
  compute := fun M =>
    {| inverse_diagonal := map (vdivide one) (diagonal M);
       status := if forallb (fun a => negb (is_zero a)) (diagonal M)
                 then Success else NumericalIssue |};
  info := status;
  solve := fun S b => zip_with vtimes b (inverse_diagonal S)
}.

End EigenSolver.

(* ================================================================= *)
(** * amgcl/mpi/repartition/scotch.hpp *)

Module scotch.

Record params : Type := {
  enable : bool;
  min_per_proc : Z;
  shrink_ratio : Z
}.

(** [params()]. *)
Definition default_params : params :=
  {| enable := false; min_per_proc := 10000; shrink_ratio := 8 |}.

(** [std::numeric_limits<ptrdiff_t>::max()]. *)
Definition PTRDIFF_MAX : Z := 2 ^ 63 - 1.

(** Modelled from the spec: mpi::exclusive_sum (amgcl/mpi/util.hpp) is not
    among the files embedded here.  From the local row count of every rank,
    the row offsets: [0], then the running sums, one more entry than there
    are ranks. *)
Fixpoint exclusive_sum_from (start : Z) (counts : list Z) : list Z :=
  match counts with
  | [] => [start]
  | n :: counts' => start :: exclusive_sum_from (start + n) counts'
  end.

Definition exclusive_sum (counts : list Z) : list Z := exclusive_sum_from 0 counts.

(** [is_needed(A)].  Of the distributed matrix the function reads the
    communicator and the local row counts: [loc_rows] holds [A.loc_rows()]
    of every rank, so [comm.size] is its length.  Every rank computes the
    same value. *)
Definition is_needed (prm : params) (loc_rows : list Z) : bool :=
  if negb (enable prm) then false
  else
    let row_dom := exclusive_sum loc_rows in
    let '(non_empty, min_n) :=
      for_loop (length loc_rows)
        (fun i acc =>
           let '(non_empty, min_n) := acc in
           let m := (nth (S i) row_dom 0 - nth i row_dom 0)%Z in
           if negb (m =? 0)%Z
           then ((non_empty + 1)%Z, Z.min min_n m)
           else (non_empty, min_n))
        (0%Z, PTRDIFF_MAX) in
    (1 <? non_empty)%Z && (min_n <=? min_per_proc prm)%Z.

(** What one pass of that loop does with the row count [m] of a rank. *)
Definition tally (acc : Z * Z) (m : Z) : Z * Z :=
  let '(non_empty, min_n) := acc in
  if negb (m =? 0)%Z then ((non_empty + 1)%Z, Z.min min_n m) else (non_empty, min_n).

(** The row counts of the ranks that own at least one row. *)
Definition nonempty (counts : list Z) : list Z :=
  filter (fun n => negb (n =? 0)%Z) counts.

(* ----------------------------------------------------------------- *)
(** ** [operator()]: the repartitioning itself *)

(** The SCOTCH entry points that [operator()] calls. *)
Inductive scotch_call : Type :=
| dgraphInit
| dgraphBuild
| dgraphCheck
| stratInit
| dgraphPart
| stratExit
| dgraphExit.

(** A computation that calls into SCOTCH: the calls made, in order, and
    how it ended. *)
Definition traced (T : Type) : Type := list scotch_call * outcome T.

Definition ret {T : Type} (v : T) : traced T := ([], Returns v).

Definition bind {T U : Type} (m : traced T) (k : T -> traced U) : traced U :=
  match m with
  | (calls, Returns v) => let '(calls', r) := k v in (calls ++ calls', r)
  | (calls, Throws e) => (calls, Throws e)
  end.

Notation "m ;; k" := (bind m (fun _ => k)) (at level 61, right associativity).

(** Modelled from the spec: amgcl::mpi::precondition (amgcl/mpi/util.hpp) is
    not among the files embedded here.  [check(comm, ierr)] raises when the
    error code is not zero. *)
Definition check (ierr : Z) : outcome unit :=
  if (ierr =? 0)%Z then Returns tt else Throws CollaboratorError.

(** [perm[i] = v]. *)
Fixpoint set_nth (i : nat) (v : Z) (l : list Z) : list Z :=
  match l, i with
  | [], _ => []
  | _ :: l', 0 => v :: l'
  | a :: l', S i' => a :: set_nth i' v l'
  end.

(** The arguments handed to [graph_perm_matrix]: the range of columns the
    rank owns after the repartitioning and the new global index of each of
    its rows. *)
Record plan : Type := {
  col_beg : Z;
  col_end : Z;
  perm : list Z
}.

(** [MPI_Allreduce] of [active = (n > 0)] with [MPI_SUM]. *)
Definition active_ranks (loc_rows : list Z) : Z :=
  fold_left (fun acc n => (acc + (if (0 <? n)%Z then 1 else 0))%Z) loc_rows 0%Z.

(** [std::max(1, active_ranks / prm.shrink_ratio)], an [int] division; it is
    undefined for a zero [shrink_ratio]: [None]. *)
Definition npart (prm : params) (loc_rows : list Z) : option Z :=
  if (shrink_ratio prm =? 0)%Z then None
  else Some (Z.max 1 (Z.quot (active_ranks loc_rows) (shrink_ratio prm))).

(** Modelled from the spec: [A.glob_rows()] and [A.loc_col_shift()]
    (amgcl/mpi/distributed_matrix.hpp) are not among the files embedded
    here.  The global row count is the sum of the local ones, the shift of a
    rank the sum over the ranks before it. *)
Definition glob_rows (loc_rows : list Z) : Z :=
  nth (length loc_rows) (exclusive_sum loc_rows) 0%Z.

Definition loc_col_shift (loc_rows : list Z) (rank : nat) : Z :=
  nth rank (exclusive_sum loc_rows) 0%Z.

Section Repartition.
(** What the SCOTCH routines answer on this rank. *)
Variable ierr : scotch_call -> Z.
(** The array [part] as [SCOTCH_dgraphPart] leaves it. *)
Variable partitioned : Z -> list Z.
(** [graph_perm_index(comm, npart, part, perm)]: the column range and the
    permutation it fills in. *)
Variable graph_perm_index : Z -> list Z -> plan.

Definition checked (c : scotch_call) : traced unit := ([c], check (ierr c)).
Definition unchecked (c : scotch_call) : traced unit := ([c], Returns tt).

(** The branch [npart == 1]: every row goes to rank 0. *)
Definition gather (loc_rows : list Z) (rank : nat) : plan :=
  let n := nth rank loc_rows 0%Z in
  let row_beg := loc_col_shift loc_rows rank in
  {| col_beg := if rank =? 0 then 0%Z else glob_rows loc_rows;
     col_end := glob_rows loc_rows;
     perm := for_loop (Z.to_nat n)
               (fun i perm => set_nth i (row_beg + Z.of_nat i)%Z perm)
               (repeat 0%Z (Z.to_nat n)) |}.

(** The other branch: the graph is built, checked and partitioned. *)
Definition partition (parts : Z) : traced plan :=
  checked dgraphInit ;;
  checked dgraphBuild ;;
  checked dgraphCheck ;;
  checked stratInit ;;
  checked dgraphPart ;;
  unchecked stratExit ;;
  unchecked dgraphExit ;;
  ret (graph_perm_index parts (partitioned parts)).

(** [operator()(A)] on the rank [rank]; [loc_rows] holds [A.loc_rows()] of
    every rank.  The result stands for
    [graph_perm_matrix(comm, col_beg, col_end, perm)]. *)
Definition repartition (prm : params) (loc_rows : list Z) (rank : nat)
  : option (traced plan) :=
  match npart prm loc_rows with
  | None => None
  | Some parts =>
      if (parts =? 1)%Z then Some (ret (gather loc_rows rank))
      else Some (partition parts)
  end.
End Repartition.

End scotch.

(* ================================================================= *)
(** * Small concrete inputs *)

Module Example.

(** A crude aggregation strategy: one aggregate holding every row that
    stores a nonzero off-diagonal entry; a row without one is left out. *)
Definition connected (M : crs) (i : nat) : bool :=
  existsb (fun cv => negb (fst cv =? i) && negb (is_zero (snd cv))) (row M i).

Definition single_aggregate (M : crs) (_ : Aggregates.params) : Aggregates.t :=
  let ids := map (fun i => if connected M i then 0%Z else (-1)%Z) (seq 0 (nrows M)) in
  {| Aggregates.count := if existsb (Z.eqb 0) ids then 1 else 0;
     Aggregates.id := ids |}.

Definition matrix_of (nr nc : nat) (rs : list (list (nat * Q))) : crs :=
  of_rows nr nc (map (map (fun cv => (fst cv, Fin (snd cv)))) rs).

(** Rows 0 and 1 coupled, row 2 isolated. *)
Definition A_iso : crs :=
  matrix_of 3 3 [ [(0, 2%Q); (1, (-1)%Q)];
                  [(0, (-1)%Q); (1, 2%Q)];
                  [(2, 1%Q)] ].

Definition P_iso : crs :=
  {| nrows := 3; ncols := 1; ptr := [0; 1; 2; 2]; col := [0; 0];
     val := [one; one; one] |}.

Definition R_iso : crs := transpose P_iso.

Definition with_alpha (a : value_t) : aggregation.params :=
  {| aggregation.aggr := aggregation.aggr aggregation.default_params;
     aggregation.over_interp := a |}.

(** Pairs of consecutive rows as aggregates, whatever the strength of their
    connection. *)
Definition pairs_aggregate (M : crs) (_ : Aggregates.params) : Aggregates.t :=
  {| Aggregates.count := Nat.div2 (S (nrows M));
     Aggregates.id := map (fun i => Z.of_nat (Nat.div2 i)) (seq 0 (nrows M)) |}.

Definition transfer (M : crs) : crs * crs :=
  match aggregation.transfer_operators pairs_aggregate M aggregation.default_params with
  | Some PR => PR
  | None => (empty_matrix, empty_matrix)
  end.

Definition coarse (M : crs) : crs :=
  match aggregation.coarse_operator M (fst (transfer M)) (snd (transfer M))
                                    aggregation.default_params with
  | Returns C => C
  | Throws _ => empty_matrix
  end.

(** The 1-D Poisson matrix on four points and the two coarser operators
    that pairwise aggregation derives from it; the last one is 1 x 1. *)
Definition A0 : crs :=
  matrix_of 4 4 [ [(0, 2%Q); (1, (-1)%Q)];
                  [(0, (-1)%Q); (1, 2%Q); (2, (-1)%Q)];
                  [(1, (-1)%Q); (2, 2%Q); (3, (-1)%Q)];
                  [(2, (-1)%Q); (3, 2%Q)] ].
Definition A1 : crs := Eval vm_compute in coarse A0.
Definition A2 : crs := Eval vm_compute in coarse A1.
Definition A2_inverse : crs :=
  {| nrows := 1; ncols := 1; ptr := [0; 1]; col := [0];
     val := [vdivide one (entry A2 0 0)] |}.

Definition cycle_params : level.params :=
  {| level.npre := 1; level.npost := 1; level.ncycle := 1; level.kcycle := 1 |}.

(** Three levels; with [kcycle = 1] the middle one runs the K-cycle. *)
Definition level0 : ViennaCL.instance :=
  ViennaCL.make_level A0 (fst (transfer A0)) (snd (transfer A0)) cycle_params 0.
Definition level1 : ViennaCL.instance :=
  ViennaCL.make_level A1 (fst (transfer A1)) (snd (transfer A1)) cycle_params 1.
Definition level2 : ViennaCL.instance :=
  ViennaCL.make_coarsest A2 A2_inverse cycle_params 2.

Definition hierarchy : list ViennaCL.instance := [level0; level1; level2].

Definition initial_store : ViennaCL.store :=
  ViennaCL.load hierarchy [one; one; one; one] (zeros 4).

(** A diagonal matrix with a zero on the diagonal. *)
Definition D_singular : crs :=
  matrix_of 2 2 [ [(0, 2%Q)]; [(1, 0%Q)] ].

End Example.

(* ================================================================= *)
(** * Properties *)

Unset Implicit Arguments.

(* ----------------------------------------------------------------- *)
(** ** Loops *)

Lemma for_loop_S {S : Type} (n : nat) (body : nat -> S -> S) (s : S) :
  for_loop (Datatypes.S n) body s = body n (for_loop n body s).
Proof.
  unfold for_loop. rewrite seq_S, fold_left_app. reflexivity.
Qed.

Lemma for_loop_const {S : Type} (n : nat) (step : S -> S) (s : S) :
  for_loop n (fun _ => step) s = ViennaCL.iterate n step s.
Proof.
  unfold for_loop. generalize 0 as k. revert s.
  induction n as [|n IH]; intros s k; simpl; [reflexivity | apply IH].
Qed.

(* ----------------------------------------------------------------- *)
(** ** The repartitioning test *)

Module scotch_facts.
Import scotch.
Local Open Scope Z_scope.

Lemma exclusive_sum_from_length (counts : list Z) (start : Z) :
  length (exclusive_sum_from start counts) = S (length counts).
Proof.
  revert start. induction counts as [|n counts IH]; intros start; simpl;
    [reflexivity | now rewrite IH].
Qed.

Lemma exclusive_sum_from_head (counts : list Z) (start : Z) :
  nth 0 (exclusive_sum_from start counts) 0 = start.
Proof. destruct counts; reflexivity. Qed.

(** The difference of consecutive offsets is the row count of the rank, so
    the loop over the ranks is a fold over the row counts. *)
Lemma loop_reads_counts (counts : list Z) :
  forall (pre : list Z) (start : Z) (acc : Z * Z),
    fold_left
      (fun acc i =>
         let '(non_empty, min_n) := acc in
         let m := nth (S i) (pre ++ exclusive_sum_from start counts) 0
                  - nth i (pre ++ exclusive_sum_from start counts) 0 in
         if negb (m =? 0) then (non_empty + 1, Z.min min_n m)
         else (non_empty, min_n))
      (seq (length pre) (length counts)) acc
    = fold_left tally counts acc.
Proof.
  induction counts as [|n counts IH]; intros pre start acc; [reflexivity|].
  cbn [length seq fold_left exclusive_sum_from].
  specialize (IH (pre ++ [start]) (start + n) (tally acc n)).
  rewrite <- app_assoc in IH. cbn [app] in IH.
  rewrite length_app in IH. cbn [length] in IH.
  replace (length pre + 1)%nat with (S (length pre)) in IH by lia.
  rewrite <- IH. f_equal.
  destruct acc as [non_empty min_n]. unfold tally.
  rewrite (app_nth2 pre _ 0 (n := S (length pre))) by lia.
  rewrite (app_nth2 pre _ 0 (n := length pre)) by lia.
  replace (S (length pre) - length pre)%nat with 1%nat by lia.
  rewrite Nat.sub_diag. cbn [nth].
  rewrite exclusive_sum_from_head.
  replace (start + n - start) with n by lia. reflexivity.
Qed.

Lemma is_needed_as_fold (prm : params) (counts : list Z) :
  is_needed prm counts =
  if negb (enable prm) then false
  else let '(non_empty, min_n) := fold_left tally counts (0, PTRDIFF_MAX) in
       (1 <? non_empty) && (min_n <=? min_per_proc prm).
Proof.
  unfold is_needed. destruct (negb (enable prm)); [reflexivity|].
  unfold for_loop, exclusive_sum.
  rewrite <- (loop_reads_counts counts [] 0 (0, PTRDIFF_MAX)). reflexivity.
Qed.

(** The counter ends at the number of ranks that own a row. *)
Lemma tally_counts (counts : list Z) (c m : Z) :
  fst (fold_left tally counts (c, m)) = c + Z.of_nat (length (nonempty counts)).
Proof.
  revert c m. induction counts as [|n counts IH]; intros c m; simpl; [lia|].
  destruct (n =? 0); simpl; rewrite IH; simpl; lia.
Qed.

(** The running minimum ends at the start value or at a nonzero row count,
    and is below both. *)
Lemma tally_minimum (counts : list Z) (c m : Z) :
  let m' := snd (fold_left tally counts (c, m)) in
  m' <= m /\
  (forall k, In k counts -> k <> 0 -> m' <= k) /\
  (m' = m \/ (In m' counts /\ m' <> 0)).
Proof.
  revert c m. induction counts as [|n counts IH]; intros c m; simpl.
  - repeat split; [lia | tauto | now left].
  - destruct (Z.eqb_spec n 0) as [E|E]; simpl.
    + destruct (IH c m) as (Hle & Hmin & Hin). repeat split; [exact Hle | | ].
      * intros k [->|Hk] Hnz; [contradiction | now apply Hmin].
      * destruct Hin as [?|[? ?]]; [now left | right; tauto].
    + destruct (IH (c + 1) (Z.min m n)) as (Hle & Hmin & Hin).
      repeat split; [lia | | ].
      * intros k [<-|Hk] Hnz; [lia | now apply Hmin].
      * destruct Hin as [Hm|[? ?]]; [|right; tauto].
        destruct (Z.min_spec m n) as [[? Hmn]|[? Hmn]];
          [left; congruence | right; split; [left; congruence | congruence]].
Qed.

End scotch_facts.

(** C9.  [is_needed] answers true only if more than one rank owns a row and
    the least nonzero local row count is at most [min_per_proc]; with a
    single rank it answers false whatever [min_per_proc] is. *)
Theorem is_needed_only_if_skewed (prm : scotch.params) (loc_rows : list Z) :
  Forall (fun n => (0 <= n <= scotch.PTRDIFF_MAX)%Z) loc_rows ->
  (scotch.is_needed prm loc_rows = true ->
     1 < length (scotch.nonempty loc_rows) /\
     exists m, In m loc_rows /\ m <> 0%Z /\
               (forall k, In k loc_rows -> k <> 0%Z -> (m <= k)%Z) /\
               (m <= scotch.min_per_proc prm)%Z)
  /\ (length loc_rows = 1 -> scotch.is_needed prm loc_rows = false).
Proof.
  intros Hrange. rewrite scotch_facts.is_needed_as_fold. split.
  - destruct (negb (scotch.enable prm)); [discriminate|].
    pose proof (scotch_facts.tally_counts loc_rows 0 scotch.PTRDIFF_MAX) as Hc.
    pose proof (scotch_facts.tally_minimum loc_rows 0 scotch.PTRDIFF_MAX) as Hm.
    destruct (fold_left scotch.tally loc_rows (0%Z, scotch.PTRDIFF_MAX))
      as [non_empty min_n]. cbn [fst snd] in Hc, Hm.
    intros H. apply andb_true_iff in H. destruct H as [H1 H2].
    apply Z.ltb_lt in H1. apply Z.leb_le in H2.
    split; [lia|].
    destruct Hm as (_ & Hmin & [Hcap|[Hin Hnz]]).
    + (* the cap is still there: some nonzero count equals it *)
      destruct (scotch.nonempty loc_rows) as [|k ks] eqn:E;
        [simpl in Hc; lia|].
      assert (Hk : In k (scotch.nonempty loc_rows)) by (rewrite E; now left).
      apply filter_In in Hk. destruct Hk as [Hk Hknz].
      apply negb_true_iff, Z.eqb_neq in Hknz.
      rewrite Forall_forall in Hrange. pose proof (Hrange k Hk) as Hb.
      pose proof (Hmin k Hk Hknz) as Hle.
      exists k. repeat split; try assumption.
      * intros j Hj Hjnz. pose proof (Hmin j Hj Hjnz). lia.
      * lia.
    + exists min_n. repeat split; assumption.
  - intros Hlen. destruct loc_rows as [|n [|? ?]]; try discriminate.
    destruct (negb (scotch.enable prm)); [reflexivity|].
    cbn [fold_left scotch.tally].
    destruct (negb (n =? 0)%Z); reflexivity.
Qed.

Lemma is_needed_only_if_skewed_witness :
  (1 < length (scotch.nonempty [5; 20]%Z) /\
   exists m, In m [5; 20]%Z /\ m <> 0%Z /\
             (forall k, In k [5; 20]%Z -> k <> 0%Z -> (m <= k)%Z) /\
             (m <= 10)%Z).
Proof.
  apply (is_needed_only_if_skewed
           {| scotch.enable := true; scotch.min_per_proc := 10;
              scotch.shrink_ratio := 8 |} [5; 20]%Z).
  - repeat (apply Forall_cons; [unfold scotch.PTRDIFF_MAX; simpl; lia|]).
    apply Forall_nil.
  - reflexivity.
Defined.

(* ----------------------------------------------------------------- *)
(** ** Rows of a matrix *)

Lemma slice_map {T U : Type} (g : T -> U) (l : list T) (b e : nat) :
  slice (map g l) b e = map g (slice l b e).
Proof. unfold slice. now rewrite skipn_map, firstn_map. Qed.

Lemma combine_map_r {T U V : Type} (g : U -> V) (l : list T) (l' : list U) :
  combine l (map g l') = map (fun tu => (fst tu, g (snd tu))) (combine l l').
Proof.
  revert l'. induction l as [|a l IH]; intros [|b l']; simpl; try reflexivity.
  now rewrite IH.
Qed.

Lemma row_scale_values (s : value_t) (M : crs) (i : nat) :
  row (scale_values s M) i = map (fun cv => (fst cv, vtimes s (snd cv))) (row M i).
Proof.
  unfold row, scale_values, vec_scale. cbn [ptr col val].
  now rewrite slice_map, combine_map_r.
Qed.

Lemma find_map_fst {V W : Type} (p : nat -> bool) (g : V -> W) (l : list (nat * V)) :
  find (fun cv => p (fst cv)) (map (fun cv => (fst cv, g (snd cv))) l)
  = option_map (fun cv => (fst cv, g (snd cv))) (find (fun cv => p (fst cv)) l).
Proof.
  induction l as [|[c v] l IH]; simpl; [reflexivity|].
  destruct (p c); [reflexivity | exact IH].
Qed.

(** An entry of the scaled matrix is the scaled entry, where one is stored. *)
Lemma entry_scale_values (s : value_t) (M : crs) (i j : nat) :
  entry (scale_values s M) i j =
  match find (fun cv => fst cv =? j) (row M i) with
  | Some cv => vtimes s (snd cv)
  | None => zero
  end.
Proof.
  unfold entry. rewrite row_scale_values.
  rewrite (find_map_fst (fun c => c =? j) (vtimes s)).
  destruct (find _ (row M i)); reflexivity.
Qed.

(* ----------------------------------------------------------------- *)
(** ** The coarse operator *)

Lemma ratio_of_scalings (v : value_t) :
  is_finite (vtimes (Fin (1 # 2)) v) = true ->
  is_zero (vtimes (Fin (1 # 2)) v) = false ->
  veq (vdivide (vtimes (Fin 1) v) (vtimes (Fin (1 # 2)) v)) (Fin 2).
Proof.
  destruct v as [q|]; simpl; [|discriminate].
  intros _ Hnz. rewrite Hnz. simpl.
  assert (Hq : ~ ((1 # 2) * q == 0)%Q).
  { intros E. apply Qeq_bool_iff in E. congruence. }
  assert (Hq' : ~ (q == 0)%Q) by (intros E; apply Hq; rewrite E; reflexivity).
  field. exact Hq'.
Qed.

(** C3.  [coarse_operator] returns the triple product R (A P) with every
    coefficient scaled by 1/over_interp; built with over_interp 1 and with
    over_interp 2 from the same A, P, R, the two results share their pattern
    and every nonzero entry of the second divides the entry of the first with
    quotient 2. *)
Theorem coarse_operator_scaled_galerkin (A P R : crs) (prm : aggregation.params) :
  aggregation.coarse_operator A P R prm =
    Returns (scale_values (vdivide one (aggregation.over_interp prm))
                          (product R (product A P)))
  /\ forall (prm1 prm2 : aggregation.params) (M1 M2 : crs),
       aggregation.over_interp prm1 = Fin 1 ->
       aggregation.over_interp prm2 = Fin 2 ->
       aggregation.coarse_operator A P R prm1 = Returns M1 ->
       aggregation.coarse_operator A P R prm2 = Returns M2 ->
       ptr M1 = ptr M2 /\ col M1 = col M2 /\
       forall i j, is_finite (entry M2 i j) = true ->
                   is_zero (entry M2 i j) = false ->
                   veq (vdivide (entry M1 i j) (entry M2 i j)) (Fin 2).
Proof.
  split; [reflexivity|].
  intros prm1 prm2 M1 M2 H1 H2 E1 E2.
  unfold aggregation.coarse_operator, aggregation.scaled_galerkin in E1, E2.
  rewrite H1 in E1. rewrite H2 in E2.
  injection E1 as <-. injection E2 as <-.
  split; [reflexivity|]. split; [reflexivity|].
  intros i j. rewrite !entry_scale_values.
  destruct (find _ (row (product R (product A P)) i)) as [[c v]|].
  - apply ratio_of_scalings.
  - discriminate.
Qed.

Lemma coarse_operator_scaled_galerkin_witness :
  veq (vdivide (Fin (2 # 1)) (Fin (2 # 2))) (Fin 2).
Proof.
  destruct (coarse_operator_scaled_galerkin
              Example.A_iso Example.P_iso Example.R_iso aggregation.default_params)
    as [_ H].
  destruct (H (Example.with_alpha (Fin 1)) (Example.with_alpha (Fin 2))
              _ _ eq_refl eq_refl eq_refl eq_refl) as (_ & _ & Hratio).
  exact (Hratio 0 0 eq_refl eq_refl).
Defined.

(** C6 as stated fails: with over_interp 0 the function does not raise a
    configuration error, it returns a matrix, whose coefficients are all
    scaled by the quotient 1/0. *)
Lemma coarse_operator_zero_alpha_returns :
  aggregation.coarse_operator Example.A_iso Example.P_iso Example.R_iso
                              (Example.with_alpha (Fin 0))
  <> Throws ConfigurationError
  /\ aggregation.coarse_operator Example.A_iso Example.P_iso Example.R_iso
                                 (Example.with_alpha (Fin 0))
     = Returns {| nrows := 1; ncols := 1; ptr := [0; 1]; col := [0]; val := [NaN] |}.
Proof. split; [discriminate | reflexivity]. Qed.

(** C6, amended.  [coarse_operator] does not validate over_interp: for every
    value of it, zero included, it returns the triple product scaled by
    1/over_interp and raises nothing. *)
Theorem coarse_operator_never_raises (A P R : crs) (prm : aggregation.params) :
  (forall e, aggregation.coarse_operator A P R prm <> Throws e)
  /\ exists M, aggregation.coarse_operator A P R prm = Returns M
               /\ M = aggregation.scaled_galerkin A P R
                        (vdivide one (aggregation.over_interp prm)).
Proof.
  split; [intros e; discriminate|]. eexists. split; reflexivity.
Qed.

(* ----------------------------------------------------------------- *)
(** ** The direct solver wrapper *)

(** C8 as stated fails: built from a singular matrix, with a solver whose
    factorization reports the failure, the wrapper is constructed all the
    same and holds the failed factorization. *)
Lemma EigenSolver_singular_constructed :
  exists E : EigenSolver.t EigenSolver.diagonal_lu,
    EigenSolver.make Example.D_singular EigenSolver.Build_params = Returns E
    /\ EigenSolver.info (EigenSolver.solver E) = EigenSolver.NumericalIssue
    /\ EigenSolver.apply E [one; one] [zero; zero] = [Fin (1 # 2); NaN].
Proof. eexists. repeat split. Qed.

(** C8, amended.  The constructor runs the factorization and completes
    whatever its status: it never raises, and the solver it holds is the
    outcome of [compute] on the matrix, failed or not. *)
Theorem EigenSolver_constructor_ignores_info
    (S : Type) (solver_S : EigenSolver.Solver S)
    (A : crs) (prm : EigenSolver.params) :
  (forall e, EigenSolver.make A prm <> Throws e)
  /\ EigenSolver.make A prm =
       Returns {| EigenSolver.n := nrows A;
                  EigenSolver.solver := EigenSolver.compute A |}.
Proof. split; [intros e; discriminate | reflexivity]. Qed.

(* ----------------------------------------------------------------- *)
(** ** Matrices given row by row *)

Lemma offsets_unfold (start : nat) (lens : list nat) :
  offsets start lens = start :: tl (offsets start lens).
Proof. destruct lens; reflexivity. Qed.

(** With offsets, columns and coefficients laid out row after row (after
    [start] earlier positions, and whatever follows the coefficients), the
    positions between two consecutive offsets hold one row. *)
Lemma row_layout (rs : list (list (nat * value_t))) :
  forall (i : nat) (pre_c : list nat) (pre_v extra : vector),
    length pre_v = length pre_c ->
    i < length rs ->
    let offs := offsets (length pre_c) (map (@length _) rs) in
    combine (slice (pre_c ++ map fst (concat rs)) (nth i offs 0) (nth (S i) offs 0))
            (slice (pre_v ++ map snd (concat rs) ++ extra) (nth i offs 0) (nth (S i) offs 0))
    = nth i rs [].
Proof.
  induction rs as [|r rs IH]; intros i pre_c pre_v extra Hpre Hi; simpl in Hi; [lia|].
  destruct i as [|i].
  - cbn [map offsets nth concat].
    rewrite (offsets_unfold (length pre_c + length r)). cbn [nth].
    unfold slice.
    replace (length pre_c + length r - length pre_c) with (length r) by lia.
    rewrite skipn_app, skipn_all2, Nat.sub_diag by lia. cbn [skipn app].
    rewrite <- Hpre.
    rewrite skipn_app, skipn_all2, Nat.sub_diag by lia. cbn [skipn app].
    rewrite !map_app, <- !app_assoc.
    rewrite firstn_app, firstn_all2 by (rewrite length_map; lia).
    rewrite length_map, Nat.sub_diag. cbn [firstn]. rewrite app_nil_r.
    rewrite firstn_app, firstn_all2 by (rewrite length_map; lia).
    rewrite length_map, Nat.sub_diag. cbn [firstn]. rewrite app_nil_r.
    clear. induction r as [|[c v] r IHr]; simpl; [reflexivity | now rewrite IHr].
  - cbn [map offsets concat]. cbn [nth].
    specialize (IH i (pre_c ++ map fst r) (pre_v ++ map snd r) extra).
    rewrite !length_app, !length_map in IH.
    specialize (IH ltac:(lia) ltac:(lia)). cbn zeta in IH.
    rewrite !map_app, <- !app_assoc in *. exact IH.
Qed.

Lemma row_of_rows (nr nc : nat) (rs : list (list (nat * value_t))) (i : nat) :
  i < length rs -> row (of_rows nr nc rs) i = nth i rs [].
Proof.
  intros Hi. unfold row, of_rows. cbn [ptr col val].
  pose proof (row_layout rs i [] [] [] eq_refl Hi) as H.
  cbn [app length] in H. rewrite app_nil_r in H. exact H.
Qed.

(* ----------------------------------------------------------------- *)
(** ** The transpose *)

Lemma row_transpose (M : crs) (j : nat) :
  j < ncols M -> row (transpose M) j = transpose_row M j.
Proof.
  intros Hj. unfold transpose.
  rewrite row_of_rows by (now rewrite length_map, length_seq).
  rewrite (nth_indep _ [] (transpose_row M 0)) by (now rewrite length_map, length_seq).
  rewrite map_nth, seq_nth by assumption. reflexivity.
Qed.

Lemma find_app_none {T : Type} (p : T -> bool) (l1 l2 : list T) :
  (forall a, In a l1 -> p a = false) -> find p (l1 ++ l2) = find p l2.
Proof.
  induction l1 as [|a l1 IH]; intros H; simpl; [reflexivity|].
  rewrite (H a (or_introl eq_refl)). apply IH. intros b Hb. apply H. now right.
Qed.

Lemma find_none_all {T : Type} (p : T -> bool) (l : list T) :
  (forall a, In a l -> p a = false) -> find p l = None.
Proof.
  intros H. rewrite <- (app_nil_r l). now rewrite find_app_none.
Qed.

(** The first entry addressed by [i] in the row of the transpose comes from
    the first entry of row [i] stored in that column. *)
Lemma find_in_chunks (M : crs) (i j : nat) :
  forall (len start : nat),
    start <= i < start + len ->
    find (fun cv => fst cv =? i)
         (flat_map (fun k => map (fun cv => (k, snd cv))
                                 (filter (fun cv => fst cv =? j) (row M k)))
                   (seq start len))
    = option_map (fun cv => (i, snd cv)) (find (fun cv => fst cv =? j) (row M i)).
Proof.
  induction len as [|len IH]; intros start Hi; [lia|].
  cbn [seq flat_map].
  destruct (Nat.eq_dec start i) as [->|Hne].
  - clear IH. induction (row M i) as [|[c v] r IHr].
    + cbn [filter map app find option_map].
      apply find_none_all. intros [c v] Hin.
      apply in_flat_map in Hin. destruct Hin as (k & Hk & Hin).
      apply in_seq in Hk. apply in_map_iff in Hin.
      destruct Hin as (cv & E & _). injection E as <- _.
      cbn [fst]. apply Nat.eqb_neq. lia.
    + cbn [filter find fst]. destruct (c =? j).
      * cbn [map app find fst option_map snd]. now rewrite Nat.eqb_refl.
      * exact IHr.
  - rewrite find_app_none.
    + apply IH. lia.
    + intros [c v] Hin. apply in_map_iff in Hin.
      destruct Hin as (cv & E & _). injection E as <- _.
      cbn [fst]. now apply Nat.eqb_neq.
Qed.

Lemma entry_transpose (M : crs) (i j : nat) :
  i < nrows M -> j < ncols M -> entry (transpose M) j i = entry M i j.
Proof.
  intros Hi Hj. unfold entry. rewrite row_transpose by assumption.
  unfold transpose_row. rewrite (find_in_chunks M i j) by lia.
  destruct (find _ (row M i)); reflexivity.
Qed.

(* ----------------------------------------------------------------- *)
(** ** The transfer operators *)

Module aggregation_facts.
Import aggregation.

Lemma injection_row_length (l : list Z) :
  map (@length _) (map injection_row l) = map width l.
Proof.
  rewrite map_map. apply map_ext. intros a. unfold injection_row, width.
  now destruct (0 <=? a)%Z.
Qed.

Lemma injection_row_columns (l : list Z) :
  map fst (concat (map injection_row l))
  = map Z.to_nat (filter (fun a => (0 <=? a)%Z) l).
Proof.
  induction l as [|a l IH]; [reflexivity|]. cbn [map concat filter].
  unfold injection_row at 1. destruct (0 <=? a)%Z; simpl; now rewrite IH.
Qed.

Lemma injection_row_values (l : list Z) :
  map snd (concat (map injection_row l))
  = repeat one (length (filter (fun a => (0 <=? a)%Z) l)).
Proof.
  induction l as [|a l IH]; [reflexivity|]. cbn [map concat filter].
  unfold injection_row at 1. destruct (0 <=? a)%Z; simpl; now rewrite IH.
Qed.

Lemma kept_le (l : list Z) :
  length (filter (fun a => (0 <=? a)%Z) l) <= length l.
Proof.
  induction l as [|a l IH]; simpl; [lia|]. destruct (0 <=? a)%Z; simpl; lia.
Qed.

(** The loop over the row indices [length pre .. length pre + length l)
    reads the ids [l] and appends one offset per id and one column per id
    that is not negative. *)
Lemma fill_P_reads (l : list Z) :
  forall (pre post : list Z) (ptr col : list nat),
    fill_P (pre ++ l ++ post) (seq (length pre) (length l)) ptr col
    = Some (ptr ++ tl (offsets (length col) (map width l)),
            col ++ map Z.to_nat (filter (fun a => (0 <=? a)%Z) l)).
Proof.
  induction l as [|a l IH]; intros pre post ptr col.
  - simpl. now rewrite !app_nil_r.
  - cbn [length seq fill_P].
    rewrite nth_error_app2, Nat.sub_diag by lia. cbn [app nth_error].
    specialize (IH (pre ++ [a]) post).
    rewrite <- app_assoc, length_app in IH. cbn [app length] in IH.
    replace (length pre + 1) with (S (length pre)) in IH by lia.
    rewrite IH. cbn [map offsets tl filter]. unfold width at 2.
    destruct (0 <=? a)%Z.
    + rewrite length_app. cbn [length map].
      rewrite <- !app_assoc. cbn [app].
      now rewrite <- offsets_unfold.
    + rewrite Nat.add_0_r, <- app_assoc. cbn [app].
      now rewrite <- offsets_unfold.
Qed.

(** What [transfer_operators] builds when [aggr.id] covers the rows. *)
Lemma transfer_operators_value
    (make_aggregates : crs -> Aggregates.params -> Aggregates.t)
    (A : crs) (prm : params) :
  let aggr := make_aggregates A (aggregation.aggr prm) in
  let ids := firstn (nrows A) (Aggregates.id aggr) in
  nrows A <= length (Aggregates.id aggr) ->
  transfer_operators make_aggregates A prm =
  let P := {| nrows := nrows A;
              ncols := Aggregates.count aggr;
              ptr := offsets 0 (map width ids);
              col := map Z.to_nat (filter (fun a => (0 <=? a)%Z) ids);
              val := repeat one (nrows A) |} in
  Some (P, transpose P).
Proof.
  intros aggr ids Hlen. unfold transfer_operators. fold aggr.
  assert (Hids : length ids = nrows A) by (unfold ids; rewrite length_firstn; lia).
  pose proof (fill_P_reads ids [] (skipn (nrows A) (Aggregates.id aggr)) [0] []) as H.
  cbn [app length] in H. unfold ids at 1 in H. rewrite firstn_skipn in H.
  rewrite Hids in H. rewrite H.
  rewrite <- (offsets_unfold 0). reflexivity.
Qed.

Lemma row_of_prolongation (ids : list Z) (nc i : nat) :
  i < length ids ->
  row {| nrows := length ids; ncols := nc;
         ptr := offsets 0 (map width ids);
         col := map Z.to_nat (filter (fun a => (0 <=? a)%Z) ids);
         val := repeat one (length ids) |} i
  = injection_row (nth i ids 0%Z).
Proof.
  intros Hi. unfold row. cbn [ptr col val].
  pose proof (row_layout (map injection_row ids) i [] []
                (repeat one (length ids - length (filter (fun a => (0 <=? a)%Z) ids)))
                eq_refl) as H.
  rewrite length_map in H. specialize (H Hi). cbn zeta in H.
  cbn [app length] in H.
  rewrite injection_row_length, injection_row_columns, injection_row_values in H.
  rewrite <- repeat_app in H.
  replace (length (filter (fun a => (0 <=? a)%Z) ids)
           + (length ids - length (filter (fun a => (0 <=? a)%Z) ids)))
    with (length ids) in H by (pose proof (kept_le ids); lia).
  rewrite H.
  rewrite (nth_indep _ [] (injection_row 0%Z)) by (now rewrite length_map).
  now rewrite map_nth.
Qed.

End aggregation_facts.

(** C4.  The prolongation returned by [transfer_operators] has as many rows
    as [A] and [count] columns; row [i] holds the single coefficient 1 in
    column [aggr.id[i]] when that id is not negative, and nothing when the
    row was left out of every aggregate. *)
Theorem transfer_operators_prolongation
    (make_aggregates : crs -> Aggregates.params -> Aggregates.t)
    (A : crs) (prm : aggregation.params) :
  let aggr := make_aggregates A (aggregation.aggr prm) in
  length (Aggregates.id aggr) = nrows A ->
  exists P R,
    aggregation.transfer_operators make_aggregates A prm = Some (P, R)
    /\ nrows P = nrows A
    /\ ncols P = Aggregates.count aggr
    /\ forall i, i < nrows A ->
         let a := nth i (Aggregates.id aggr) 0%Z in
         ((0 <= a)%Z -> row P i = [(Z.to_nat a, one)])
         /\ ((a < 0)%Z -> row P i = []).
Proof.
  intros aggr Hlen.
  pose proof (aggregation_facts.transfer_operators_value make_aggregates A prm) as H.
  cbn zeta in H. fold aggr in H. specialize (H ltac:(lia)).
  rewrite <- Hlen, firstn_all in H.
  eexists. eexists. split; [exact H|].
  cbn [nrows ncols]. split; [exact Hlen|]. split; [reflexivity|].
  intros i Hi.
  rewrite aggregation_facts.row_of_prolongation by lia.
  set (a := nth i (Aggregates.id aggr) 0%Z).
  unfold aggregation.injection_row.
  split; intros Ha.
  - apply Z.leb_le in Ha. now rewrite Ha.
  - apply Z.leb_gt in Ha. now rewrite Ha.
Qed.

Lemma transfer_operators_prolongation_witness :
  exists P R,
    aggregation.transfer_operators Example.single_aggregate Example.A_iso
                                   aggregation.default_params = Some (P, R)
    /\ nrows P = 3 /\ ncols P = 1
    /\ row P 0 = [(0, one)] /\ row P 2 = [].
Proof.
  destruct (transfer_operators_prolongation Example.single_aggregate Example.A_iso
              aggregation.default_params eq_refl) as (P & R & E & Hr & Hc & Hrows).
  exists P, R. split; [exact E|]. split; [exact Hr|]. split; [exact Hc|].
  split.
  - apply (Hrows 0); [simpl; lia | simpl; lia].
  - apply (Hrows 2); [simpl; lia | simpl; lia].
Defined.

(** C5.  The restriction returned by [transfer_operators] is the transpose of
    the prolongation returned with it: it is built as [transpose(P)], has the
    dimensions of P exchanged, each of its entries is the mirrored entry of
    P, and transposing it gives back the entries of P. *)
Theorem transfer_operators_restriction_is_transpose
    (make_aggregates : crs -> Aggregates.params -> Aggregates.t)
    (A : crs) (prm : aggregation.params) :
  let aggr := make_aggregates A (aggregation.aggr prm) in
  length (Aggregates.id aggr) = nrows A ->
  exists P R,
    aggregation.transfer_operators make_aggregates A prm = Some (P, R)
    /\ R = transpose P
    /\ nrows R = ncols P
    /\ ncols R = nrows P
    /\ forall i j, i < nrows P -> j < ncols P ->
         entry R j i = entry P i j
         /\ entry (transpose R) i j = entry P i j.
Proof.
  intros aggr Hlen.
  pose proof (aggregation_facts.transfer_operators_value make_aggregates A prm) as H.
  cbn zeta in H. fold aggr in H. specialize (H ltac:(lia)).
  eexists. eexists. split; [exact H|].
  split; [reflexivity|]. split; [reflexivity|]. split; [reflexivity|].
  intros i j Hi Hj.
  assert (E : entry (transpose
                       {| nrows := nrows A; ncols := Aggregates.count aggr;
                          ptr := offsets 0 (map aggregation.width
                                              (firstn (nrows A) (Aggregates.id aggr)));
                          col := map Z.to_nat
                                   (filter (fun a => (0 <=? a)%Z)
                                           (firstn (nrows A) (Aggregates.id aggr)));
                          val := repeat one (nrows A) |}) j i
              = entry {| nrows := nrows A; ncols := Aggregates.count aggr;
                         ptr := offsets 0 (map aggregation.width
                                             (firstn (nrows A) (Aggregates.id aggr)));
                         col := map Z.to_nat
                                  (filter (fun a => (0 <=? a)%Z)
                                          (firstn (nrows A) (Aggregates.id aggr)));
                         val := repeat one (nrows A) |} i j)
    by (apply entry_transpose; assumption).
  split; [exact E|].
  rewrite entry_transpose; [exact E | exact Hj | exact Hi].
Qed.

Lemma transfer_operators_restriction_is_transpose_witness :
  exists P R,
    aggregation.transfer_operators Example.single_aggregate Example.A_iso
                                   aggregation.default_params = Some (P, R)
    /\ R = transpose P
    /\ entry R 0 1 = entry P 1 0.
Proof.
  destruct (transfer_operators_restriction_is_transpose
              Example.single_aggregate Example.A_iso
              aggregation.default_params eq_refl)
    as (P & R & E & Ht & Hr & Hc & Hentries).
  exists P, R. split; [exact E|]. split; [exact Ht|].
  assert (HP : P = Example.P_iso).
  { vm_compute in E. injection E as <- _. reflexivity. }
  apply (Hentries 1 0); rewrite HP; simpl; lia.
Defined.

(** C7 fails on a matrix with a row left out of every aggregate: the
    prolongation built for [A_iso] stores two entries (two columns,
    [ptr[nrows] = 2]) and three coefficients. *)
Lemma prolongation_values_outnumber_entries :
  exists P R,
    aggregation.transfer_operators Example.single_aggregate Example.A_iso
                                   aggregation.default_params = Some (P, R)
    /\ Aggregates.id (Example.single_aggregate Example.A_iso
                        (aggregation.aggr aggregation.default_params))
       = [0; 0; -1]%Z
    /\ nonzeros P = 2
    /\ length (col P) = 2
    /\ length (val P) = 3.
Proof. eexists. eexists. repeat split. Qed.

(** In general the coefficient array of the prolongation has one entry per
    row of [A], the column array one per row that belongs to an aggregate. *)
Lemma prolongation_array_sizes
    (make_aggregates : crs -> Aggregates.params -> Aggregates.t)
    (A : crs) (prm : aggregation.params) (P R : crs) :
  let aggr := make_aggregates A (aggregation.aggr prm) in
  length (Aggregates.id aggr) = nrows A ->
  aggregation.transfer_operators make_aggregates A prm = Some (P, R) ->
  length (val P) = nrows A
  /\ length (col P) = length (filter (fun a => (0 <=? a)%Z) (Aggregates.id aggr)).
Proof.
  intros aggr Hlen E.
  pose proof (aggregation_facts.transfer_operators_value make_aggregates A prm) as H.
  cbn zeta in H. fold aggr in H. specialize (H ltac:(lia)).
  rewrite <- Hlen, firstn_all in H. rewrite H in E.
  injection E as <- _. cbn [val col].
  now rewrite repeat_length, length_map.
Qed.

(* ----------------------------------------------------------------- *)
(** ** Vectors *)

Lemma zip_with_length (op : value_t -> value_t -> value_t) (x y : vector) :
  length (zip_with op x y) = length x.
Proof.
  revert y. induction x as [|a x IH]; intros y; simpl; [reflexivity | now rewrite IH].
Qed.

Lemma zip_with_nth (op : value_t -> value_t -> value_t) (x y : vector) (i : nat) :
  i < length x ->
  nth i (zip_with op x y) zero = op (nth i x zero) (nth i y zero).
Proof.
  revert y i. induction x as [|a x IH]; intros y i Hi; simpl in Hi; [lia|].
  destruct i as [|i]; simpl.
  - now destruct y.
  - rewrite IH by lia. now destruct y as [|b [|c y]]; destruct i.
Qed.

Lemma prod_length (M : crs) (x : vector) : length (prod M x) = nrows M.
Proof. unfold prod. now rewrite length_map, length_seq. Qed.

Lemma clear_zeros (x : vector) : clear x = zeros (length x).
Proof.
  unfold clear, zeros. induction x as [|a x IH]; simpl; [reflexivity | now rewrite IH].
Qed.

Lemma all_finite_nth (x : vector) :
  all_finite x = true <-> forall i, i < length x -> is_finite (nth i x zero) = true.
Proof.
  unfold all_finite. rewrite forallb_forall. split.
  - intros H i Hi. apply H. now apply nth_In.
  - intros H a Ha. destruct (In_nth x a zero Ha) as (i & Hi & <-). now apply H.
Qed.

(* ----------------------------------------------------------------- *)
(** ** The store of work vectors *)

Module ViennaCL_facts.
Import ViennaCL.

Lemma vref_eqb_spec (a b : vref) : reflect (a = b) (vref_eqb a b).
Proof.
  destruct a as [i|i|i|i|i k], b as [j|j|j|j|j m]; simpl;
    try (constructor; discriminate);
    try (destruct (Nat.eqb_spec i j); constructor; congruence).
  destruct (Nat.eqb_spec i j), (Nat.eqb_spec k m); constructor; congruence.
Qed.

Lemma vref_eqb_refl (a : vref) : vref_eqb a a = true.
Proof. now destruct (vref_eqb_spec a a). Qed.

Lemma vref_eqb_sym (a b : vref) : vref_eqb a b = vref_eqb b a.
Proof.
  destruct (vref_eqb_spec a b), (vref_eqb_spec b a); congruence.
Qed.

Lemma assign_same (r : vref) (v : vector) (st : store) : assign r v st r = v.
Proof. unfold assign. now rewrite vref_eqb_refl. Qed.

Lemma assign_other (r r' : vref) (v : vector) (st : store) :
  vref_eqb r' r = false -> assign r v st r' = st r'.
Proof. unfold assign. now intros ->. Qed.

(* ----------------------------------------------------------------- *)
(** ** Relaxation *)

Lemma relax_spec_length (L : instance) (b x : vector) :
  length (relax_spec L b x) = length x.
Proof. unfold relax_spec, vec_add. apply zip_with_length. Qed.

Lemma iterate_relax_length (L : instance) (b : vector) (n : nat) (x : vector) :
  length (iterate n (relax_spec L b) x) = length x.
Proof.
  revert x. induction n as [|n IH]; intros x; simpl; [reflexivity|].
  now rewrite IH, relax_spec_length.
Qed.

Section Relax.
Variables (L : instance) (lvl : nat) (rhs x : vref).
Hypothesis Hx : vref_eqb x (lvl_t lvl) = false.
Hypothesis Hrhs : vref_eqb rhs (lvl_t lvl) = false.

(** One step leaves in [x] the value of the specification's formula. *)
Lemma relax_x (st : store) :
  relax L lvl rhs x st x = relax_spec L (st rhs) (st x).
Proof.
  unfold relax, relax_spec.
  rewrite assign_same.
  repeat (rewrite ?assign_same, ?(assign_other _ _ _ _ Hx),
                  ?(assign_other _ _ _ _ Hrhs)).
  reflexivity.
Qed.

(** It writes [x] and the work vector [t] of the level, nothing else. *)
Lemma relax_frame (st : store) (r : vref) :
  vref_eqb r x = false -> vref_eqb r (lvl_t lvl) = false ->
  relax L lvl rhs x st r = st r.
Proof.
  intros Hr1 Hr2. unfold relax.
  now rewrite (assign_other _ _ _ _ Hr1), !(assign_other _ _ _ _ Hr2).
Qed.

Hypothesis Hrx : vref_eqb rhs x = false.

Lemma relax_loop (n : nat) (st : store) :
  for_loop n (fun _ => relax L lvl rhs x) st x
    = iterate n (relax_spec L (st rhs)) (st x)
  /\ forall r, vref_eqb r x = false -> vref_eqb r (lvl_t lvl) = false ->
               for_loop n (fun _ => relax L lvl rhs x) st r = st r.
Proof.
  rewrite for_loop_const. revert st.
  induction n as [|n IH]; intros st; simpl; [split; reflexivity|].
  destruct (IH (relax L lvl rhs x st)) as [Hv Hf]. split.
  - rewrite Hv, relax_x, (relax_frame st rhs Hrx Hrhs). reflexivity.
  - intros r Hr1 Hr2. rewrite (Hf r Hr1 Hr2). now apply relax_frame.
Qed.

End Relax.

(* ----------------------------------------------------------------- *)
(** ** Finite values *)

Lemma slice_In {T : Type} (l : list T) (b e : nat) (a : T) :
  In a (slice l b e) -> In a l.
Proof.
  unfold slice. intros H.
  rewrite <- (firstn_skipn b l). apply in_or_app. right.
  rewrite <- (firstn_skipn (e - b) (skipn b l)). apply in_or_app. now left.
Qed.

Lemma row_values (M : crs) (i : nat) (cv : nat * value_t) :
  In cv (row M i) -> In (snd cv) (val M).
Proof.
  unfold row. intros H. destruct cv as [c v]. apply in_combine_r in H.
  now apply slice_In in H.
Qed.

Lemma entry_finite (M : crs) (i j : nat) :
  all_finite (val M) = true -> is_finite (entry M i j) = true.
Proof.
  intros HM. unfold entry.
  destruct (find _ (row M i)) as [cv|] eqn:E; [|reflexivity].
  apply find_some in E. destruct E as [Hin _].
  unfold all_finite in HM. rewrite forallb_forall in HM.
  apply HM. now apply row_values with (i := i).
Qed.

Lemma nth_finite (x : vector) (i : nat) :
  all_finite x = true -> is_finite (nth i x zero) = true.
Proof.
  intros Hx. destruct (Nat.lt_ge_cases i (length x)) as [Hi|Hi].
  - now apply all_finite_nth.
  - now rewrite nth_overflow.
Qed.

Lemma row_sum_finite (x : vector) (r : list (nat * value_t)) :
  all_finite x = true ->
  forall acc,
    (forall cv, In cv r -> is_finite (snd cv) = true) ->
    is_finite acc = true ->
    is_finite (fold_left
                 (fun acc cv => vplus acc (vtimes (snd cv) (nth (fst cv) x zero)))
                 r acc) = true.
Proof.
  intros Hx. induction r as [|cv r IH]; intros acc Hrow Hacc; simpl; [exact Hacc|].
  apply IH.
  - intros cv' Hcv'. apply Hrow. now right.
  - pose proof (Hrow cv (or_introl eq_refl)) as Hv.
    pose proof (nth_finite x (fst cv) Hx) as Hn.
    destruct acc, (snd cv), (nth (fst cv) x zero); simpl in *; congruence.
Qed.

Lemma prod_finite (M : crs) (x : vector) :
  all_finite (val M) = true -> all_finite x = true -> all_finite (prod M x) = true.
Proof.
  intros HM Hx. apply forallb_forall.
  intros a Ha. unfold prod in Ha. apply in_map_iff in Ha. destruct Ha as (i & <- & _).
  apply row_sum_finite; [exact Hx | | reflexivity].
  intros cv Hcv. unfold all_finite in HM. rewrite forallb_forall in HM.
  apply HM. now apply row_values with (i := i).
Qed.

Lemma diagonal_nth (M : crs) (i : nat) :
  i < nrows M -> nth i (diagonal M) zero = entry M i i.
Proof.
  intros Hi. unfold diagonal.
  rewrite (nth_indep _ zero (entry M 0 0)) by (now rewrite length_map, length_seq).
  rewrite (map_nth (fun k => entry M k k)), seq_nth by assumption. reflexivity.
Qed.

(** An entry of the relaxed vector is finite exactly when its divisor is not
    zero, all the operands being finite. *)
Lemma relaxed_entry_finite (xi bi ti di : value_t) :
  is_finite xi = true -> is_finite bi = true -> is_finite ti = true ->
  is_finite di = true ->
  is_finite (vplus xi (vtimes omega (vdivide (vminus bi ti) di)))
  = negb (is_zero di).
Proof.
  destruct xi, bi, ti, di; simpl; try discriminate. intros _ _ _ _.
  now destruct (Qeq_bool q2 0).
Qed.

End ViennaCL_facts.

(** C10.  [relax] divides the residual by the cached diagonal with no test of
    the divisor: [x] becomes x + 0.72 (rhs - A x) / d entry by entry, and,
    on finite data, every entry of the result is finite (no division by
    zero took place) if and only if no diagonal entry of [A] is zero; a
    zero diagonal entry leaves a non-finite value in [x]. *)
Theorem relax_division_unguarded
    (L : ViennaCL.instance) (lvl : nat) (rhs x : ViennaCL.vref) (st : ViennaCL.store) :
  ViennaCL.vref_eqb x (ViennaCL.lvl_t lvl) = false ->
  ViennaCL.vref_eqb rhs (ViennaCL.lvl_t lvl) = false ->
  ViennaCL.d L = diagonal (ViennaCL.A L) ->
  all_finite (val (ViennaCL.A L)) = true ->
  all_finite (st rhs) = true -> all_finite (st x) = true ->
  length (st rhs) = nrows (ViennaCL.A L) ->
  length (st x) = nrows (ViennaCL.A L) ->
  let x' := ViennaCL.relax L lvl rhs x st x in
  x' = vec_add (st x)
         (vec_scale ViennaCL.omega
            (element_div (vec_sub (st rhs) (prod (ViennaCL.A L) (st x)))
                         (ViennaCL.d L)))
  /\ (forall i, i < nrows (ViennaCL.A L) ->
        is_finite (nth i x' zero) = negb (is_zero (entry (ViennaCL.A L) i i)))
  /\ (all_finite x' = true <->
      forall i, i < nrows (ViennaCL.A L) -> is_zero (entry (ViennaCL.A L) i i) = false).
Proof.
  intros Hx Hrhs Hd HA Hb Hx0 Hlb Hlx x'.
  assert (Hval : x' = ViennaCL.relax_spec L (st rhs) (st x))
    by (apply ViennaCL_facts.relax_x; assumption).
  assert (Hentry : forall i, i < nrows (ViennaCL.A L) ->
            is_finite (nth i x' zero) = negb (is_zero (entry (ViennaCL.A L) i i))).
  { intros i Hi. rewrite Hval. unfold ViennaCL.relax_spec, vec_add, vec_scale,
      element_div, vec_sub.
    rewrite zip_with_nth by lia.
    rewrite (nth_indep (map _ _) zero (vtimes ViennaCL.omega zero))
      by (now rewrite length_map, zip_with_length, zip_with_length, Hlb).
    rewrite (map_nth (vtimes ViennaCL.omega)).
    rewrite zip_with_nth by (now rewrite zip_with_length, Hlb).
    rewrite zip_with_nth by (now rewrite Hlb).
    rewrite Hd, ViennaCL_facts.diagonal_nth by assumption.
    apply ViennaCL_facts.relaxed_entry_finite.
    - now apply ViennaCL_facts.nth_finite.
    - now apply ViennaCL_facts.nth_finite.
    - apply ViennaCL_facts.nth_finite. now apply ViennaCL_facts.prod_finite.
    - now apply ViennaCL_facts.entry_finite. }
  assert (Hlen : length x' = nrows (ViennaCL.A L))
    by (now rewrite Hval, ViennaCL_facts.relax_spec_length).
  split; [exact Hval|]. split; [exact Hentry|].
  rewrite all_finite_nth, Hlen. split; intros H i Hi.
  - specialize (H i Hi). rewrite (Hentry i Hi) in H. now apply negb_true_iff.
  - rewrite (Hentry i Hi), (H i Hi). reflexivity.
Qed.

(* ----------------------------------------------------------------- *)
(** ** The cycles against their specification *)

Module cycle_facts.
Import ViennaCL ViennaCL_facts.

Ltac ref_neq :=
  first [ assumption
        | reflexivity
        | (rewrite vref_eqb_sym; assumption)
        | (simpl; now rewrite ?Nat.eqb_refl, ?andb_false_r) ].

Lemma not_owned_neq (lvl : nat) (r r' : vref) :
  owned_by_cycle lvl r = false -> owned_by_cycle lvl r' = true ->
  vref_eqb r r' = false.
Proof.
  intros H H'. destruct (vref_eqb_spec r r'); [congruence | reflexivity].
Qed.

(** A vector that [cycle] at [lvl] does not own is none of the vectors the
    pass names. *)
Lemma not_owned_refs (lvl : nat) (r : vref) :
  owned_by_cycle lvl r = false ->
  vref_eqb r (lvl_t lvl) = false
  /\ vref_eqb r (lvl_f (S lvl)) = false
  /\ vref_eqb r (lvl_u (S lvl)) = false.
Proof.
  intros H. repeat split; apply (not_owned_neq lvl); try assumption; cbn [owned_by_cycle].
  - apply Nat.leb_refl.
  - apply Nat.ltb_lt. lia.
  - apply Nat.ltb_lt. lia.
Qed.

Lemma not_kowned_refs (lvl : nat) (r : vref) (k : nat) :
  owned_by_kcycle lvl r = false -> vref_eqb r (lvl_cg lvl k) = false.
Proof.
  intros H. destruct (vref_eqb_spec r (lvl_cg lvl k)) as [->|]; [|reflexivity].
  cbn [owned_by_kcycle] in H. now rewrite Nat.leb_refl in H.
Qed.

Lemma kowned_weaken (lvl : nat) (r : vref) :
  owned_by_kcycle lvl r = false -> owned_by_cycle lvl r = false.
Proof.
  destruct r; cbn [owned_by_cycle owned_by_kcycle]; auto. intros H.
  apply Nat.leb_gt in H. apply Nat.ltb_ge. lia.
Qed.

Lemma owned_step (lvl : nat) (r : vref) :
  owned_by_cycle lvl r = false -> owned_by_kcycle (S lvl) r = false.
Proof.
  destruct r; cbn [owned_by_cycle owned_by_kcycle]; auto; intros H.
  - apply Nat.ltb_ge in H. apply Nat.ltb_ge. lia.
  - apply Nat.ltb_ge in H. apply Nat.ltb_ge. lia.
  - apply Nat.leb_gt in H. apply Nat.leb_gt. lia.
Qed.

Lemma not_owned_not_sized (lvl : nat) (r : vref) :
  owned_by_cycle lvl r = false -> sized_at (S lvl) r = false.
Proof. destruct r; cbn [owned_by_cycle sized_at]; auto. Qed.

Lemma sized_neq (lvl : nat) (r r' : vref) :
  sized_at lvl r = true -> sized_at lvl r' = false -> vref_eqb r r' = false.
Proof.
  intros H H'. destruct (vref_eqb_spec r r'); [congruence | reflexivity].
Qed.

Lemma sized_step (k : nat) (r : vref) :
  sized_at (S k) r = true -> sized_at k r = true.
Proof.
  destruct r; cbn [sized_at]; auto; intros H; apply Nat.leb_le in H; apply Nat.leb_le; lia.
Qed.

(** [work_sized] only looks at the sizes of the vectors [sized_at] names. *)
Lemma work_sized_same (levels : list instance) :
  forall (k : nat) (st st' : store),
    (forall r, sized_at k r = true -> length (st' r) = length (st r)) ->
    work_sized levels k st -> work_sized levels k st'.
Proof.
  induction levels as [|L levels IH]; intros k st st' Hsame Hws; [exact I|].
  destruct Hws as (Hu & Hc0 & Hc1 & Hrest).
  assert (Hk : (k <=? k) = true) by apply Nat.leb_refl.
  cbn [work_sized]. repeat split.
  - now rewrite Hsame.
  - now rewrite Hsame.
  - intros E. rewrite Hsame by exact Hk. now apply Hc1.
  - apply (IH (S k) st st'); [|exact Hrest].
    intros r Hr. apply Hsame. now apply sized_step.
Qed.

Lemma vcycle_pass_length (sol : vector -> vector -> vector) (L N : instance)
    (prm : level.params) (b x : vector) :
  length (vcycle_pass sol L N prm b x) = length x.
Proof.
  unfold vcycle_pass. rewrite iterate_relax_length.
  unfold vec_add. now rewrite zip_with_length, iterate_relax_length.
Qed.

Section CyclePass.
Variable descend : store -> store.
Variable sol : vector -> vector -> vector.
Variables (L N : instance) (rest : list instance) (lvl : nat).
Variable prm : level.params.
Variables rhs x : vref.
Hypothesis Hrhs : owned_by_cycle lvl rhs = false.
Hypothesis Hx : owned_by_cycle lvl x = false.
Hypothesis Hrx : vref_eqb rhs x = false.
Hypothesis HR : nrows (R L) = nrows (A N).
(** What the solve on the next level is assumed to do. *)
Hypothesis Hdescend : forall st,
  work_sized (N :: rest) (S lvl) st ->
  length (st (lvl_f (S lvl))) = nrows (A N) ->
  descend st (lvl_u (S lvl)) = sol (st (lvl_f (S lvl))) (st (lvl_u (S lvl)))
  /\ (forall r, owned_by_cycle lvl r = false -> descend st r = st r)
  /\ work_sized (N :: rest) (S lvl) (descend st).

Lemma cycle_pass_ok (st : store) :
  work_sized (N :: rest) (S lvl) st ->
  cycle_pass descend L lvl prm rhs x st x = vcycle_pass sol L N prm (st rhs) (st x)
  /\ (forall r, owned_by_cycle lvl r = false -> vref_eqb r x = false ->
        cycle_pass descend L lvl prm rhs x st r = st r)
  /\ work_sized (N :: rest) (S lvl) (cycle_pass descend L lvl prm rhs x st).
Proof.
  intros Hws.
  destruct (not_owned_refs lvl x Hx) as (Hxt & Hxf & Hxu).
  destruct (not_owned_refs lvl rhs Hrhs) as (Hrt & Hrf & Hru).
  pose proof (not_owned_not_sized lvl x Hx) as Hxs.
  unfold cycle_pass. cbv zeta.
  (* before the descent *)
  destruct (relax_loop L lvl rhs x Hxt Hrt Hrx (level.npre prm) st) as [Hpre Hpre_frame].
  set (st1 := for_loop (level.npre prm) (fun _ => relax L lvl rhs x) st) in *.
  set (st2 := assign (lvl_t lvl) (prod (A L) (st1 x)) st1).
  set (st3 := assign (lvl_t lvl) (vec_sub (st2 rhs) (st2 (lvl_t lvl))) st2).
  set (st4 := assign (lvl_f (S lvl)) (prod (R L) (st3 (lvl_t lvl))) st3).
  set (st5 := assign (lvl_u (S lvl)) (clear (st4 (lvl_u (S lvl)))) st4).
  assert (H1r : st1 rhs = st rhs) by (apply Hpre_frame; ref_neq).
  assert (H5x : st5 x = st1 x).
  { unfold st5, st4, st3, st2. now rewrite !assign_other by ref_neq. }
  assert (H5r : st5 rhs = st rhs).
  { unfold st5, st4, st3, st2. now rewrite !assign_other by ref_neq. }
  assert (H5f : st5 (lvl_f (S lvl))
                = prod (R L) (vec_sub (st rhs) (prod (A L) (st1 x)))).
  { unfold st5, st4. rewrite assign_other by ref_neq. rewrite assign_same.
    unfold st3. rewrite assign_same. unfold st2.
    rewrite assign_same, assign_other by ref_neq. now rewrite H1r. }
  assert (H5u : st5 (lvl_u (S lvl)) = zeros (nrows (A N))).
  { unfold st5. rewrite assign_same, clear_zeros.
    unfold st4, st3, st2. rewrite !assign_other by ref_neq.
    rewrite Hpre_frame by ref_neq. destruct Hws as (Hu & _). now rewrite Hu. }
  assert (H5s : work_sized (N :: rest) (S lvl) st5).
  { apply (work_sized_same (N :: rest) (S lvl) st); [|exact Hws].
    intros r Hr. pose proof (sized_neq (S lvl) r x Hr Hxs) as Hrx'.
    unfold st5, assign at 1.
    destruct (vref_eqb_spec r (lvl_u (S lvl))) as [->|Hne].
    - rewrite clear_zeros. unfold zeros. rewrite repeat_length.
      unfold st4, st3, st2. rewrite !assign_other by ref_neq.
      now rewrite Hpre_frame by ref_neq.
    - unfold st4, st3, st2.
      rewrite !assign_other
        by (apply (sized_neq (S lvl)); [exact Hr | reflexivity]).
      rewrite Hpre_frame; [reflexivity | exact Hrx' |].
      apply (sized_neq (S lvl)); [exact Hr | reflexivity]. }
  assert (H5l : length (st5 (lvl_f (S lvl))) = nrows (A N))
    by (now rewrite H5f, prod_length).
  (* the descent *)
  destruct (Hdescend st5 H5s H5l) as (Hd & Hd_frame & Hd_sized).
  set (st6 := descend st5) in *.
  set (st7 := assign (lvl_t lvl) (prod (P L) (st6 (lvl_u (S lvl)))) st6).
  set (st8 := assign x (vec_add (st7 x) (st7 (lvl_t lvl))) st7).
  assert (H8x : st8 x = vec_add (st1 x)
                          (prod (P L) (sol (st5 (lvl_f (S lvl))) (zeros (nrows (A N)))))).
  { unfold st8. rewrite assign_same. unfold st7.
    rewrite assign_same, assign_other by ref_neq.
    now rewrite (Hd_frame x Hx), H5x, Hd, H5u. }
  assert (H8r : st8 rhs = st rhs).
  { unfold st8, st7. rewrite !assign_other by ref_neq.
    now rewrite (Hd_frame rhs Hrhs). }
  (* after the descent *)
  destruct (relax_loop L lvl rhs x Hxt Hrt Hrx (level.npost prm) st8)
    as [Hpost Hpost_frame].
  split; [|split].
  - rewrite Hpost, H8r, H8x, H5f, Hpre. reflexivity.
  - intros r Hr Hrx'.
    destruct (not_owned_refs lvl r Hr) as (Hrt' & Hrf' & Hru').
    rewrite Hpost_frame by assumption.
    unfold st8, st7. rewrite !assign_other by ref_neq.
    rewrite (Hd_frame r Hr).
    unfold st5, st4, st3, st2. rewrite !assign_other by ref_neq.
    now apply Hpre_frame.
  - apply (work_sized_same (N :: rest) (S lvl) st6); [|exact Hd_sized].
    intros r Hr. pose proof (sized_neq (S lvl) r x Hr Hxs) as Hrx'.
    assert (Hrt' : vref_eqb r (lvl_t lvl) = false)
      by (apply (sized_neq (S lvl)); [exact Hr | reflexivity]).
    rewrite Hpost_frame by assumption.
    unfold st8, st7. now rewrite !assign_other by ref_neq.
Qed.

(** The loop over [ncycle] passes. *)
Lemma cycle_loop_ok (n : nat) (st : store) :
  work_sized (N :: rest) (S lvl) st ->
  let st' := for_loop n (fun _ => cycle_pass descend L lvl prm rhs x) st in
  st' x = iterate n (vcycle_pass sol L N prm (st rhs)) (st x)
  /\ (forall r, owned_by_cycle lvl r = false -> vref_eqb r x = false -> st' r = st r)
  /\ work_sized (N :: rest) (S lvl) st'.
Proof.
  intros Hws st'. unfold st'. clear st'. rewrite for_loop_const.
  revert st Hws. induction n as [|n IH]; intros st Hws; simpl.
  - split; [reflexivity | split; [intros; reflexivity | exact Hws]].
  - destruct (cycle_pass_ok st Hws) as (Hv & Hf & Hs).
    destruct (IH _ Hs) as (Hv' & Hf' & Hs').
    split; [|split].
    + rewrite Hv', Hv, (Hf rhs Hrhs Hrx). reflexivity.
    + intros r Hr Hrx'. rewrite (Hf' r Hr Hrx'). now apply Hf.
    + exact Hs'.
Qed.

End CyclePass.

Lemma kcycle_step_lengths (V : vector -> vector -> vector) (L : instance)
    (first : bool) (k : kstate) :
  length (kx (kcycle_step V L first k)) = length (kx k)
  /\ length (kr (kcycle_step V L first k)) = length (kr k).
Proof.
  unfold kcycle_step. cbn [kx kr]. unfold vec_add, vec_sub.
  now rewrite !zip_with_length.
Qed.

Section KCycle.
Variable cyc : vref -> vref -> store -> store.
Variable V : vector -> vector -> vector.
Variables (L N : instance) (rest : list instance) (lvl : nat).
(** What [cycle] at this level is assumed to do. *)
Hypothesis Hcyc : forall rhs x st,
  owned_by_cycle lvl rhs = false -> owned_by_cycle lvl x = false ->
  vref_eqb rhs x = false ->
  work_sized (N :: rest) (S lvl) st ->
  cyc rhs x st x = V (st rhs) (st x)
  /\ (forall r, owned_by_cycle lvl r = false -> vref_eqb r x = false ->
        cyc rhs x st r = st r)
  /\ work_sized (N :: rest) (S lvl) (cyc rhs x st)
  /\ length (cyc rhs x st x) = length (st x).
Variable x : vref.
Hypothesis Hx : owned_by_kcycle lvl x = false.

Lemma cg_not_owned (k : nat) : owned_by_cycle lvl (lvl_cg lvl k) = false.
Proof. cbn [owned_by_cycle]. apply Nat.ltb_irrefl. Qed.

Lemma cg_not_sized (k : nat) : sized_at (S lvl) (lvl_cg lvl k) = false.
Proof. cbn [sized_at]. apply Nat.leb_gt. lia. Qed.

(** One pass of the loop of [kcycle] is one step of the specification. *)
Lemma kcycle_iter_ok (iter : nat) (rho1 rho2 : value_t) (st : store) (k : kstate) :
  st x = kx k ->
  st (lvl_cg lvl 0) = kr k ->
  (iter <> 0 -> st (lvl_cg lvl 2) = kp k /\ rho1 = krho k) ->
  length (st (lvl_cg lvl 1)) = nrows (A L) ->
  work_sized (N :: rest) (S lvl) st ->
  let res := kcycle_iter cyc L lvl x iter (rho1, rho2, st) in
  let k' := kcycle_step V L (iter =? 0) k in
  snd res x = kx k'
  /\ snd res (lvl_cg lvl 0) = kr k'
  /\ snd res (lvl_cg lvl 2) = kp k'
  /\ fst (fst res) = krho k'
  /\ length (snd res (lvl_cg lvl 1)) = nrows (A L)
  /\ work_sized (N :: rest) (S lvl) (snd res)
  /\ (forall r, owned_by_kcycle lvl r = false -> vref_eqb r x = false ->
        snd res r = st r).
Proof.
  intros Hkx Hkr Hkp Hs Hws.
  pose proof (not_kowned_refs lvl x 0 Hx) as Hx0.
  pose proof (not_kowned_refs lvl x 1 Hx) as Hx1.
  pose proof (not_kowned_refs lvl x 2 Hx) as Hx2.
  pose proof (not_kowned_refs lvl x 3 Hx) as Hx3.
  pose proof (kowned_weaken lvl x Hx) as Hxc.
  unfold kcycle_iter. cbv beta iota zeta.
  set (sa := assign (lvl_cg lvl 1) (clear (st (lvl_cg lvl 1))) st).
  assert (Hsa_sized : work_sized (N :: rest) (S lvl) sa).
  { apply (work_sized_same (N :: rest) (S lvl) st); [|exact Hws].
    intros r Hr. unfold sa. rewrite assign_other; [reflexivity|].
    apply (sized_neq (S lvl)); [exact Hr | apply cg_not_sized]. }
  destruct (Hcyc (lvl_cg lvl 0) (lvl_cg lvl 1) sa (cg_not_owned 0) (cg_not_owned 1)
              ltac:(ref_neq) Hsa_sized) as (Hb & Hb_frame & Hb_sized & Hb_len).
  set (sb := cyc (lvl_cg lvl 0) (lvl_cg lvl 1) sa) in *.
  assert (Hsa_s : sa (lvl_cg lvl 1) = zeros (nrows (A L))).
  { unfold sa. now rewrite assign_same, clear_zeros, Hs. }
  assert (Hsb_r : sb (lvl_cg lvl 0) = kr k).
  { rewrite Hb_frame by (first [apply cg_not_owned | ref_neq]).
    unfold sa. now rewrite assign_other by ref_neq. }
  assert (Hsb_s : sb (lvl_cg lvl 1) = V (kr k) (zeros (nrows (A L)))).
  { rewrite Hb, Hsa_s. unfold sa. now rewrite assign_other, Hkr by ref_neq. }
  assert (Hsb_x : sb x = kx k).
  { rewrite Hb_frame by assumption. unfold sa. now rewrite assign_other by ref_neq. }
  assert (Hsb_p : sb (lvl_cg lvl 2) = st (lvl_cg lvl 2)).
  { rewrite Hb_frame by (first [apply cg_not_owned | ref_neq]).
    unfold sa. now rewrite assign_other by ref_neq. }
  set (rho := inner_prod (sb (lvl_cg lvl 0)) (sb (lvl_cg lvl 1))).
  set (sc := if negb (iter =? 0)
             then assign (lvl_cg lvl 2)
                    (vec_add (sb (lvl_cg lvl 1))
                       (vec_scale (vdivide rho rho1) (sb (lvl_cg lvl 2)))) sb
             else assign (lvl_cg lvl 2) (sb (lvl_cg lvl 1)) sb).
  assert (Hsc_p : sc (lvl_cg lvl 2) = kp (kcycle_step V L (iter =? 0) k)).
  { unfold sc, kcycle_step. cbn [kp].
    destruct (Nat.eqb_spec iter 0) as [->|Hne]; cbn [negb]; rewrite assign_same.
    - exact Hsb_s.
    - destruct (Hkp Hne) as [Hp Hrho].
      unfold rho. now rewrite Hsb_r, Hsb_s, Hsb_p, Hp, Hrho. }
  assert (Hsc_other : forall r, vref_eqb r (lvl_cg lvl 2) = false -> sc r = sb r).
  { intros r Hr. unfold sc. destruct (negb (iter =? 0)); now rewrite assign_other. }
  set (sd := assign (lvl_cg lvl 3) (prod (A L) (sc (lvl_cg lvl 2))) sc).
  set (alpha := vdivide rho (inner_prod (sd (lvl_cg lvl 3)) (sd (lvl_cg lvl 2)))).
  set (se := assign x (vec_add (sd x) (vec_scale alpha (sd (lvl_cg lvl 2)))) sd).
  set (sf := assign (lvl_cg lvl 0)
               (vec_sub (se (lvl_cg lvl 0)) (vec_scale alpha (se (lvl_cg lvl 3)))) se).
  cbn [fst snd].
  assert (Hsd_q : sd (lvl_cg lvl 3) = prod (A L) (kp (kcycle_step V L (iter =? 0) k))).
  { unfold sd. now rewrite assign_same, Hsc_p. }
  assert (Hsd_p : sd (lvl_cg lvl 2) = kp (kcycle_step V L (iter =? 0) k)).
  { unfold sd. now rewrite assign_other by ref_neq. }
  assert (Hrho : rho = krho (kcycle_step V L (iter =? 0) k)).
  { unfold rho, kcycle_step. cbn [krho]. now rewrite Hsb_r, Hsb_s. }
  assert (Halpha : alpha = vdivide (krho (kcycle_step V L (iter =? 0) k))
                             (inner_prod (prod (A L) (kp (kcycle_step V L (iter =? 0) k)))
                                         (kp (kcycle_step V L (iter =? 0) k)))).
  { unfold alpha. now rewrite Hsd_q, Hsd_p, Hrho. }
  split; [|split; [|split; [|split; [|split; [|split]]]]].
  - unfold sf. rewrite assign_other by ref_neq. unfold se. rewrite assign_same.
    rewrite Hsd_p, Halpha. unfold sd. rewrite assign_other by ref_neq.
    rewrite Hsc_other by ref_neq. rewrite Hsb_x. reflexivity.
  - unfold sf. rewrite assign_same. unfold se.
    rewrite !assign_other by ref_neq.
    rewrite Hsd_q, Halpha. unfold sd. rewrite assign_other by ref_neq.
    rewrite Hsc_other by ref_neq. rewrite Hsb_r. reflexivity.
  - unfold sf, se. rewrite !assign_other by ref_neq. exact Hsd_p.
  - exact Hrho.
  - unfold sf, se, sd. rewrite !assign_other by ref_neq.
    rewrite Hsc_other by ref_neq. rewrite Hb_len, Hsa_s.
    unfold zeros. apply repeat_length.
  - apply (work_sized_same (N :: rest) (S lvl) sb); [|exact Hb_sized].
    intros r Hr.
    assert (Hcg : forall j, vref_eqb r (lvl_cg lvl j) = false)
      by (intros j; apply (sized_neq (S lvl)); [exact Hr | apply cg_not_sized]).
    assert (Hrx : vref_eqb r x = false)
      by (apply (sized_neq (S lvl)); [exact Hr | now apply not_owned_not_sized]).
    unfold sf, se, sd. rewrite !assign_other by (first [apply Hcg | exact Hrx]).
    now rewrite Hsc_other by apply Hcg.
  - intros r Hr Hrx.
    pose proof (not_kowned_refs lvl r) as Hcg.
    unfold sf, se, sd. rewrite !assign_other by (first [now apply Hcg | exact Hrx]).
    rewrite Hsc_other by (now apply Hcg).
    rewrite Hb_frame by (first [now apply kowned_weaken | now apply Hcg]).
    unfold sa. now rewrite assign_other by (now apply Hcg).
Qed.

(** [kcycle] at a level that is not the last: two steps of the
    specification, from [r = rhs]. *)
Lemma kcycle_with_ok (rhs : vref) (st : store) :
  owned_by_kcycle lvl rhs = false ->
  length (st (lvl_cg lvl 1)) = nrows (A L) ->
  work_sized (N :: rest) (S lvl) st ->
  let st' := kcycle_with cyc (L :: N :: rest) lvl rhs x st in
  let k' := kcycle_spec V L (st rhs) (st x) in
  st' x = kx k'
  /\ st' (lvl_cg lvl 0) = kr k'
  /\ st' (lvl_cg lvl 2) = kp k'
  /\ length (st' (lvl_cg lvl 1)) = nrows (A L)
  /\ work_sized (N :: rest) (S lvl) st'
  /\ (forall r, owned_by_kcycle lvl r = false -> vref_eqb r x = false ->
        st' r = st r).
Proof.
  intros Hrhs Hs Hws.
  pose proof (not_kowned_refs lvl x 0 Hx) as Hx0.
  unfold kcycle_with, for_loop. cbn [seq fold_left].
  set (s0 := assign (lvl_cg lvl 0) (st rhs) st).
  assert (Hs0_sized : work_sized (N :: rest) (S lvl) s0).
  { apply (work_sized_same (N :: rest) (S lvl) st); [|exact Hws].
    intros r Hr. unfold s0. rewrite assign_other; [reflexivity|].
    apply (sized_neq (S lvl)); [exact Hr | apply cg_not_sized]. }
  set (k0 := {| kx := st x; kr := st rhs; kp := []; krho := zero |}).
  pose proof (kcycle_iter_ok 0 zero zero s0 k0) as H1. cbv zeta in H1.
  specialize (H1 ltac:(unfold s0; now rewrite assign_other by ref_neq)
                 ltac:(unfold s0; now rewrite assign_same)
                 ltac:(intros E; now contradiction E)
                 ltac:(unfold s0; now rewrite assign_other by ref_neq)
                 Hs0_sized).
  destruct (kcycle_iter cyc L lvl x 0 (zero, zero, s0)) as [[rho1 rho2] s1].
  cbn [fst snd] in H1.
  destruct H1 as (H1x & H1r & H1p & H1rho & H1s & H1sized & H1frame).
  pose proof (kcycle_iter_ok 1 rho1 rho2 s1 (kcycle_step V L true k0)) as H2.
  cbv zeta in H2.
  specialize (H2 H1x H1r ltac:(intros _; split; assumption) H1s H1sized).
  destruct H2 as (H2x & H2r & H2p & _ & H2s & H2sized & H2frame).
  unfold kcycle_spec. fold k0.
  split; [exact H2x|]. split; [exact H2r|]. split; [exact H2p|].
  split; [exact H2s|]. split; [exact H2sized|].
  intros r Hr Hrx. rewrite (H2frame r Hr Hrx), (H1frame r Hr Hrx).
  unfold s0. rewrite assign_other; [reflexivity | now apply not_kowned_refs].
Qed.

End KCycle.

Lemma iterate_vcycle_pass_length (sol : vector -> vector -> vector) (L N : instance)
    (prm : level.params) (b : vector) (n : nat) (x : vector) :
  length (iterate n (vcycle_pass sol L N prm b) x) = length x.
Proof.
  revert x. induction n as [|n IH]; intros x; simpl; [reflexivity|].
  now rewrite IH, vcycle_pass_length.
Qed.

Lemma kcycle_enabled_size (N : instance) :
  kcycle_enabled N = true ->
  length (nth 0 (cg N) []) = 0 \/ length (nth 0 (cg N) []) = nrows (A N) ->
  length (nth 0 (cg N) []) = nrows (A N).
Proof.
  unfold kcycle_enabled. intros E [H|H]; [|exact H].
  rewrite H in E. discriminate.
Qed.

(** The stateful cycle computes in [x] what the specification computes from
    the values of [rhs] and [x], writes nothing it does not own, and keeps
    the sizes of the work vectors below. *)
Lemma cycle_ok (prm : level.params) (levels : list instance) :
  forall (lvl : nat) (rhs x : vref) (st : store),
    hierarchy_wf levels ->
    owned_by_cycle lvl rhs = false ->
    owned_by_cycle lvl x = false ->
    vref_eqb rhs x = false ->
    work_sized (tl levels) (S lvl) st ->
    let st' := cycle levels lvl prm rhs x st in
    st' x = vcycle_spec levels prm (st rhs) (st x)
    /\ (forall r, owned_by_cycle lvl r = false -> vref_eqb r x = false ->
          st' r = st r)
    /\ work_sized (tl levels) (S lvl) st'
    /\ (forall L, hd_error levels = Some L ->
          length (st x) = nrows (A L) -> length (st' x) = nrows (A L)).
Proof.
  induction levels as [|L rest IH]; intros lvl rhs x st Hwf Hrhs Hx Hrx Hws.
  { cbn. repeat split; try reflexivity. discriminate. }
  destruct rest as [|N rest].
  { (* the last level: the direct solve *)
    cbn [cycle vcycle_spec tl work_sized hd_error].
    destruct Hwf as (_ & Hinv).
    split; [apply assign_same|]. split; [|split; [exact I|]].
    - intros r _ Hr. now apply assign_other.
    - intros L' E _. injection E as <-. now rewrite assign_same, prod_length. }
  cbn [tl hd_error] in *.
  destruct Hwf as (_ & HR & Hwf).
  set (descend := fun s : store =>
         if negb (length (s (lvl_cg (S lvl) 0)) =? 0)
         then kcycle_with (cycle (N :: rest) (S lvl) prm) (N :: rest) (S lvl)
                          (lvl_f (S lvl)) (lvl_u (S lvl)) s
         else cycle (N :: rest) (S lvl) prm (lvl_f (S lvl)) (lvl_u (S lvl)) s).
  set (sol := if kcycle_enabled N
              then ksolve_spec (vcycle_spec (N :: rest) prm) (N :: rest)
              else vcycle_spec (N :: rest) prm).
  assert (Hdescend : forall s,
    work_sized (N :: rest) (S lvl) s ->
    length (s (lvl_f (S lvl))) = nrows (A N) ->
    descend s (lvl_u (S lvl)) = sol (s (lvl_f (S lvl))) (s (lvl_u (S lvl)))
    /\ (forall r, owned_by_cycle lvl r = false -> descend s r = s r)
    /\ work_sized (N :: rest) (S lvl) (descend s)).
  { intros s Hs Hf. pose proof Hs as (Hu & Hc0 & Hc1 & Hbelow).
    assert (Hfu : vref_eqb (lvl_f (S lvl)) (lvl_u (S lvl)) = false) by reflexivity.
    assert (Hof : owned_by_cycle (S lvl) (lvl_f (S lvl)) = false)
      by (cbn [owned_by_cycle]; apply Nat.ltb_irrefl).
    assert (Hou : owned_by_cycle (S lvl) (lvl_u (S lvl)) = false)
      by (cbn [owned_by_cycle]; apply Nat.ltb_irrefl).
    unfold descend, sol. rewrite Hc0. fold (kcycle_enabled N).
    destruct (kcycle_enabled N) eqn:EK.
    - (* the K-cycle on the next level *)
      destruct rest as [|N' rest].
      + destruct Hwf as (_ & Hinv).
        cbn [kcycle_with ksolve_spec work_sized].
        split; [apply assign_same|]. split.
        * intros r Hr. apply assign_other. now apply not_owned_refs.
        * rewrite assign_same, prod_length, !assign_other by reflexivity.
          split; [exact Hinv | split; [exact Hc0 | split; [|exact I]]].
          intros _. exact (Hc1 eq_refl).
      + assert (Hcyc : forall rhs' x' s',
          owned_by_cycle (S lvl) rhs' = false -> owned_by_cycle (S lvl) x' = false ->
          vref_eqb rhs' x' = false ->
          work_sized (N' :: rest) (S (S lvl)) s' ->
          cycle (N :: N' :: rest) (S lvl) prm rhs' x' s' x'
            = vcycle_spec (N :: N' :: rest) prm (s' rhs') (s' x')
          /\ (forall r, owned_by_cycle (S lvl) r = false -> vref_eqb r x' = false ->
                cycle (N :: N' :: rest) (S lvl) prm rhs' x' s' r = s' r)
          /\ work_sized (N' :: rest) (S (S lvl))
                        (cycle (N :: N' :: rest) (S lvl) prm rhs' x' s')
          /\ length (cycle (N :: N' :: rest) (S lvl) prm rhs' x' s' x')
             = length (s' x')).
        { intros rhs' x' s' H1 H2 H3 H4.
          destruct (IH (S lvl) rhs' x' s' Hwf H1 H2 H3 H4) as (Ha & Hb & Hc & _).
          split; [exact Ha|]. split; [exact Hb|]. split; [exact Hc|].
          rewrite Ha. cbn [vcycle_spec]. apply iterate_vcycle_pass_length. }
        assert (Hku : owned_by_kcycle (S lvl) (lvl_u (S lvl)) = false)
          by (cbn [owned_by_kcycle owned_by_cycle]; apply Nat.ltb_irrefl).
        assert (Hkf : owned_by_kcycle (S lvl) (lvl_f (S lvl)) = false)
          by (cbn [owned_by_kcycle owned_by_cycle]; apply Nat.ltb_irrefl).
        destruct (kcycle_with_ok (cycle (N :: N' :: rest) (S lvl) prm)
                    (vcycle_spec (N :: N' :: rest) prm) N N' rest (S lvl) Hcyc
                    (lvl_u (S lvl)) Hku (lvl_f (S lvl)) s Hkf (Hc1 eq_refl) Hbelow)
          as (Kx & Kr & _ & Ks & Ksized & Kframe).
        split; [exact Kx|]. split.
        * intros r Hr. apply Kframe; [now apply owned_step | now apply not_owned_refs].
        * cbn [work_sized]. split; [|split; [|split]].
          -- rewrite Kx. unfold kcycle_spec.
             rewrite !(proj1 (kcycle_step_lengths _ _ _ _)). exact Hu.
          -- rewrite Kr. unfold kcycle_spec.
             rewrite !(proj2 (kcycle_step_lengths _ _ _ _)). cbn [kr].
             rewrite Hf. symmetry. apply kcycle_enabled_size; [exact EK|].
             now destruct Hwf as (Hcg & _).
          -- intros _. exact Ks.
          -- exact Ksized.
    - (* the V-cycle on the next level *)
      destruct (IH (S lvl) (lvl_f (S lvl)) (lvl_u (S lvl)) s Hwf Hof Hou Hfu Hbelow)
        as (Vx & Vframe & Vsized & Vlen).
      split; [exact Vx|]. split.
      + intros r Hr. apply Vframe.
        * apply kowned_weaken. now apply owned_step.
        * now apply not_owned_refs.
      + cbn [work_sized]. split; [|split; [|split]].
        * now apply (Vlen N).
        * rewrite Vframe by (first [apply cg_not_owned | reflexivity]). exact Hc0.
        * intros E. congruence.
        * exact Vsized. }
  cbn [cycle vcycle_spec]. fold descend. fold sol.
  destruct (cycle_loop_ok descend sol L N rest lvl prm rhs x Hrhs Hx Hrx HR Hdescend
              (level.ncycle prm) st Hws) as (Hv & Hframe & Hsized).
  split; [exact Hv|]. split; [exact Hframe|]. split; [exact Hsized|].
  intros L' E Hlen. injection E as <-. rewrite <- Hlen.
  etransitivity; [exact (f_equal (@length _) Hv)|].
  apply iterate_vcycle_pass_length.
Qed.

End cycle_facts.

(* ================================================================= *)
(** * The cycles *)

(** C1.  At a level that is not the last, [cycle] leaves in [x] the result
    of [ncycle] passes, each made of [npre] relaxation steps on (rhs, x),
    the residual rhs - A x, its restriction by R, the solve on the next
    level from the zero vector, the correction prolongated by P and added to
    x, and [npost] relaxation steps; the V-cycle on the next level is what
    [cycle] computes there on that level's [f] and [u]; on the last level
    [cycle] leaves Ainv rhs in [x] and touches nothing else. *)
Theorem cycle_performs_vcycle
    (prm : level.params) (L N : ViennaCL.instance) (rest : list ViennaCL.instance)
    (lvl : nat) (rhs x : ViennaCL.vref) (st : ViennaCL.store) :
  ViennaCL.hierarchy_wf (L :: N :: rest) ->
  ViennaCL.owned_by_cycle lvl rhs = false ->
  ViennaCL.owned_by_cycle lvl x = false ->
  ViennaCL.vref_eqb rhs x = false ->
  ViennaCL.work_sized (N :: rest) (S lvl) st ->
  let b := st rhs in
  let coarse_solve :=
    if ViennaCL.kcycle_enabled N
    then ViennaCL.ksolve_spec (ViennaCL.vcycle_spec (N :: rest) prm) (N :: rest)
    else ViennaCL.vcycle_spec (N :: rest) prm in
  ViennaCL.cycle (L :: N :: rest) lvl prm rhs x st x
  = ViennaCL.iterate (level.ncycle prm)
      (fun x0 =>
         let x1 := ViennaCL.iterate (level.npre prm) (ViennaCL.relax_spec L b) x0 in
         let residual := vec_sub b (prod (ViennaCL.A L) x1) in
         let coarse_rhs := prod (ViennaCL.R L) residual in
         let correction := coarse_solve coarse_rhs (zeros (nrows (ViennaCL.A N))) in
         let x2 := vec_add x1 (prod (ViennaCL.P L) correction) in
         ViennaCL.iterate (level.npost prm) (ViennaCL.relax_spec L b) x2)
      (st x)
  /\ (forall s : ViennaCL.store,
        ViennaCL.work_sized rest (S (S lvl)) s ->
        ViennaCL.cycle (N :: rest) (S lvl) prm
                       (ViennaCL.lvl_f (S lvl)) (ViennaCL.lvl_u (S lvl)) s
                       (ViennaCL.lvl_u (S lvl))
        = ViennaCL.vcycle_spec (N :: rest) prm
                               (s (ViennaCL.lvl_f (S lvl))) (s (ViennaCL.lvl_u (S lvl))))
  /\ forall Lc : ViennaCL.instance,
       ViennaCL.cycle [Lc] lvl prm rhs x st x = prod (ViennaCL.Ainv Lc) b
       /\ forall r, ViennaCL.vref_eqb r x = false ->
                    ViennaCL.cycle [Lc] lvl prm rhs x st r = st r.
Proof.
  intros Hwf Hrhs Hx Hrx Hws b coarse_solve. split; [|split].
  - destruct (cycle_facts.cycle_ok prm (L :: N :: rest) lvl rhs x st
                Hwf Hrhs Hx Hrx Hws) as (Hv & _).
    exact Hv.
  - intros s Hs. destruct Hwf as (_ & _ & Hwf).
    assert (Hirr : (S lvl <? S lvl) = false) by apply Nat.ltb_irrefl.
    destruct (cycle_facts.cycle_ok prm (N :: rest) (S lvl)
                (ViennaCL.lvl_f (S lvl)) (ViennaCL.lvl_u (S lvl)) s
                Hwf Hirr Hirr eq_refl Hs) as (Hv & _).
    exact Hv.
  - intros Lc. cbn [ViennaCL.cycle]. split.
    + apply ViennaCL_facts.assign_same.
    + intros r Hr. now apply ViennaCL_facts.assign_other.
Qed.

Lemma cycle_performs_vcycle_witness :
  ViennaCL.cycle [Example.level0; Example.level1; Example.level2] 0
                 Example.cycle_params (ViennaCL.caller 0) (ViennaCL.caller 1)
                 Example.initial_store (ViennaCL.caller 1)
  = ViennaCL.vcycle_spec [Example.level0; Example.level1; Example.level2]
                         Example.cycle_params
                         (Example.initial_store (ViennaCL.caller 0))
                         (Example.initial_store (ViennaCL.caller 1)).
Proof.
  refine (proj1 (cycle_performs_vcycle Example.cycle_params
                   Example.level0 Example.level1 [Example.level2] 0
                   (ViennaCL.caller 0) (ViennaCL.caller 1) Example.initial_store
                   _ eq_refl eq_refl eq_refl _)).
  - vm_compute. repeat split; first [reflexivity | now left | now right].
  - vm_compute. repeat split; try reflexivity; intros; first [reflexivity | discriminate].
Defined.

(** C2.  At a level that is not the last, [kcycle] performs two inner
    iterations whatever the residuals: starting from r = rhs, each applies
    one V-cycle at this level to r from the zero vector giving s, takes
    rho1 = <r, s>, the direction p = s in the first and
    p = s + (rho1 / rho2) p in the second, q = A p,
    alpha = rho1 / <q, p>, and updates x += alpha p, r -= alpha q
    ([kcycle_step]); [x], [r] and [p] end as after the second step, and the
    V-cycle of the steps is what [cycle] computes at this level. *)
Theorem kcycle_performs_two_steps
    (prm : level.params) (L N : ViennaCL.instance) (rest : list ViennaCL.instance)
    (lvl : nat) (rhs x : ViennaCL.vref) (st : ViennaCL.store) :
  ViennaCL.hierarchy_wf (L :: N :: rest) ->
  ViennaCL.owned_by_kcycle lvl rhs = false ->
  ViennaCL.owned_by_kcycle lvl x = false ->
  length (st (ViennaCL.lvl_cg lvl 1)) = nrows (ViennaCL.A L) ->
  ViennaCL.work_sized (N :: rest) (S lvl) st ->
  let V := ViennaCL.vcycle_spec (L :: N :: rest) prm in
  let start := {| ViennaCL.kx := st x; ViennaCL.kr := st rhs;
                  ViennaCL.kp := []; ViennaCL.krho := zero |} in
  let first := ViennaCL.kcycle_step V L true start in
  let second := ViennaCL.kcycle_step V L false first in
  let st' := ViennaCL.kcycle (L :: N :: rest) lvl prm rhs x st in
  st' x = ViennaCL.kx second
  /\ st' (ViennaCL.lvl_cg lvl 0) = ViennaCL.kr second
  /\ st' (ViennaCL.lvl_cg lvl 2) = ViennaCL.kp second
  /\ (forall r s, ViennaCL.owned_by_cycle lvl r = false ->
                  ViennaCL.owned_by_cycle lvl s = false ->
                  ViennaCL.vref_eqb r s = false ->
                  ViennaCL.cycle (L :: N :: rest) lvl prm r s st s = V (st r) (st s)).
Proof.
  intros Hwf Hrhs Hx Hs Hws V start first second st'.
  assert (Hcyc : forall rhs' x' s',
    ViennaCL.owned_by_cycle lvl rhs' = false ->
    ViennaCL.owned_by_cycle lvl x' = false ->
    ViennaCL.vref_eqb rhs' x' = false ->
    ViennaCL.work_sized (N :: rest) (S lvl) s' ->
    ViennaCL.cycle (L :: N :: rest) lvl prm rhs' x' s' x' = V (s' rhs') (s' x')
    /\ (forall r, ViennaCL.owned_by_cycle lvl r = false ->
                  ViennaCL.vref_eqb r x' = false ->
                  ViennaCL.cycle (L :: N :: rest) lvl prm rhs' x' s' r = s' r)
    /\ ViennaCL.work_sized (N :: rest) (S lvl)
                           (ViennaCL.cycle (L :: N :: rest) lvl prm rhs' x' s')
    /\ length (ViennaCL.cycle (L :: N :: rest) lvl prm rhs' x' s' x') = length (s' x')).
  { intros rhs' x' s' H1 H2 H3 H4.
    destruct (cycle_facts.cycle_ok prm (L :: N :: rest) lvl rhs' x' s' Hwf H1 H2 H3 H4)
      as (Ha & Hb & Hc & _).
    split; [exact Ha|]. split; [exact Hb|]. split; [exact Hc|].
    rewrite Ha. cbn [ViennaCL.vcycle_spec].
    apply cycle_facts.iterate_vcycle_pass_length. }
  destruct (cycle_facts.kcycle_with_ok (ViennaCL.cycle (L :: N :: rest) lvl prm)
              V L N rest lvl Hcyc x Hx rhs st Hrhs Hs Hws)
    as (Kx & Kr & Kp & _).
  split; [exact Kx|]. split; [exact Kr|]. split; [exact Kp|].
  intros r s H1 H2 H3. now apply Hcyc.
Qed.

Lemma kcycle_performs_two_steps_witness :
  let V := ViennaCL.vcycle_spec [Example.level1; Example.level2] Example.cycle_params in
  ViennaCL.kcycle [Example.level1; Example.level2] 1 Example.cycle_params
                  (ViennaCL.lvl_f 1) (ViennaCL.lvl_u 1) Example.initial_store
                  (ViennaCL.lvl_u 1)
  = ViennaCL.kx
      (ViennaCL.kcycle_step V Example.level1 false
         (ViennaCL.kcycle_step V Example.level1 true
            {| ViennaCL.kx := Example.initial_store (ViennaCL.lvl_u 1);
               ViennaCL.kr := Example.initial_store (ViennaCL.lvl_f 1);
               ViennaCL.kp := []; ViennaCL.krho := zero |})).
Proof.
  refine (proj1 (kcycle_performs_two_steps Example.cycle_params
                   Example.level1 Example.level2 [] 1
                   (ViennaCL.lvl_f 1) (ViennaCL.lvl_u 1) Example.initial_store
                   _ eq_refl eq_refl eq_refl _)).
  - vm_compute. repeat split; first [reflexivity | now left | now right].
  - vm_compute. repeat split; try reflexivity; intros; first [reflexivity | discriminate].
Defined.

Lemma relax_division_unguarded_witness :
  is_finite (nth 0 (ViennaCL.relax Example.level0 0 (ViennaCL.caller 0)
                      (ViennaCL.caller 1) Example.initial_store (ViennaCL.caller 1))
                 zero)
  = negb (is_zero (entry (ViennaCL.A Example.level0) 0 0)).
Proof.
  refine (proj1 (proj2 (relax_division_unguarded Example.level0 0
                          (ViennaCL.caller 0) (ViennaCL.caller 1)
                          Example.initial_store
                          eq_refl eq_refl eq_refl eq_refl eq_refl eq_refl
                          eq_refl eq_refl)) 0 _).
  simpl. lia.
Defined.

(* ================================================================= *)
(** * Levels as the constructors build them *)

Module construction_facts.
Import ViennaCL.

(** A level built with transfer operators below the finest one has its
    work vectors sized by the rows of its matrix, and caches the diagonal. *)
Lemma make_level_sized (a p r : crs) (prm : level.params) (nlevel : nat) :
  nlevel <> 0 ->
  let L := make_level a p r prm nlevel in
  d L = diagonal (A L)
  /\ length (u L) = nrows (A L)
  /\ (length (nth 0 (cg L) []) = 0 \/ length (nth 0 (cg L) []) = nrows (A L))
  /\ (kcycle_enabled L = true -> length (nth 1 (cg L) []) = nrows (A L)).
Proof.
  intros Hn L. unfold L, make_level, kcycle_enabled. cbn [d A u cg].
  destruct (Nat.eqb_spec nlevel 0) as [E|_]; [contradiction|]. cbn [negb andb].
  split; [reflexivity|]. split; [apply repeat_length|].
  destruct (negb (level.kcycle prm =? 0) && (nlevel mod level.kcycle prm =? 0));
    cbn [repeat nth length].
  - split; [right; apply repeat_length | intros _; apply repeat_length].
  - split; [now left | discriminate].
Qed.

(** The coarsest level never runs the K-cycle. *)
Lemma make_coarsest_sized (a ai : crs) (prm : level.params) (nlevel : nat) :
  let L := make_coarsest a ai prm nlevel in
  d L = diagonal (A L)
  /\ length (u L) = nrows (A L)
  /\ kcycle_enabled L = false
  /\ Ainv L = ai.
Proof.
  cbn. repeat split. apply repeat_length.
Qed.

(** Loaded from a hierarchy whose levels are so sized, the store satisfies
    [work_sized]. *)
Lemma load_work_sized (h : list instance) (rhs x : vector) (levels : list instance) :
  forall (pre : list instance),
    h = pre ++ levels ->
    (forall L, In L levels ->
       length (u L) = nrows (A L)
       /\ (kcycle_enabled L = true -> length (nth 1 (cg L) []) = nrows (A L))) ->
    work_sized levels (length pre) (load h rhs x).
Proof.
  induction levels as [|L levels IH]; intros pre Hh Hall; [exact I|].
  assert (Hnth : nth_error h (length pre) = Some L).
  { rewrite Hh, nth_error_app2, Nat.sub_diag by lia. reflexivity. }
  destruct (Hall L (or_introl eq_refl)) as (Hu & Hcg).
  cbn [work_sized load]. rewrite Hnth.
  split; [exact Hu|]. split; [reflexivity|]. split; [exact Hcg|].
  specialize (IH (pre ++ [L])). rewrite length_app in IH. cbn [length] in IH.
  replace (length pre + 1) with (S (length pre)) in IH by lia.
  apply IH.
  - now rewrite <- app_assoc.
  - intros L' HL'. apply Hall. now right.
Qed.

End construction_facts.

(* ================================================================= *)
(** * Further properties of the repartitioner *)

Module repartition_facts.
Import scotch.
Local Open Scope Z_scope.

Lemma active_ranks_from (counts : list Z) (c : Z) :
  fold_left (fun acc n => acc + (if 0 <? n then 1 else 0)) counts c
  = c + Z.of_nat (length (filter (fun n => 0 <? n) counts)).
Proof.
  revert c. induction counts as [|n counts IH]; intros c; simpl; [lia|].
  rewrite IH. destruct (0 <? n); simpl; lia.
Qed.

(** On row counts that are not negative, [operator()] and [is_needed] count
    the same ranks. *)
Lemma active_ranks_nonempty (counts : list Z) :
  Forall (fun n => 0 <= n) counts ->
  active_ranks counts = Z.of_nat (length (nonempty counts)).
Proof.
  intros H. unfold active_ranks. rewrite active_ranks_from, Z.add_0_l.
  do 2 f_equal. unfold nonempty. induction H as [|n counts Hn _ IH]; [reflexivity|].
  simpl. rewrite IH.
  destruct (Z.ltb_spec 0 n), (Z.eqb_spec n 0); simpl; try reflexivity; lia.
Qed.

Lemma set_nth_app (l1 l2 : list Z) (a v : Z) :
  set_nth (length l1) v (l1 ++ a :: l2) = l1 ++ v :: l2.
Proof.
  induction l1 as [|b l1 IH]; simpl; [reflexivity | now rewrite IH].
Qed.

(** The loop that fills [perm] writes [row_beg + i] at every index. *)
Lemma perm_loop (row_beg : Z) (n : nat) :
  for_loop n (fun i perm => set_nth i (row_beg + Z.of_nat i) perm) (repeat 0 n)
  = map (fun i => row_beg + Z.of_nat i) (seq 0%nat n).
Proof.
  assert (H : forall k, (k <= n)%nat ->
            for_loop k (fun i perm => set_nth i (row_beg + Z.of_nat i) perm)
                     (repeat 0 n)
            = map (fun i => row_beg + Z.of_nat i) (seq 0%nat k) ++ repeat 0 (n - k)).
  { induction k as [|k IH]; intros Hk.
    - cbn. now rewrite Nat.sub_0_r.
    - rewrite for_loop_S, IH by lia.
      replace (n - k)%nat with (S (n - S k)) by lia. cbn [repeat].
      pose proof (set_nth_app (map (fun i => row_beg + Z.of_nat i) (seq 0%nat k))
                    (repeat 0 (n - S k)) 0 (row_beg + Z.of_nat k)) as E.
      rewrite length_map, length_seq in E. rewrite E.
      rewrite seq_S, map_app, <- app_assoc. reflexivity. }
  rewrite (H n (Nat.le_refl n)), Nat.sub_diag. cbn [repeat]. apply app_nil_r.
Qed.

Lemma exclusive_sum_from_last (counts : list Z) (start : Z) :
  nth (length counts) (exclusive_sum_from start counts) 0
  = start + fold_right Z.add 0 counts.
Proof.
  revert start. induction counts as [|n counts IH]; intros start; simpl; [lia|].
  rewrite IH. lia.
Qed.

Lemma seq_Z_shift (start : Z) (a b : nat) :
  forall k : nat,
    map (fun i => start + Z.of_nat i) (seq (a + k) b)
    = map (fun i => (start + Z.of_nat a) + Z.of_nat i) (seq k b).
Proof.
  induction b as [|b IH]; intros k; [reflexivity|].
  cbn [seq map]. f_equal; [lia|].
  rewrite <- Nat.add_succ_r. apply IH.
Qed.

Lemma seq_Z_app (start : Z) (a b : nat) :
  map (fun i => start + Z.of_nat i) (seq 0%nat (a + b))
  = map (fun i => start + Z.of_nat i) (seq 0%nat a)
    ++ map (fun i => (start + Z.of_nat a) + Z.of_nat i) (seq 0%nat b).
Proof.
  rewrite seq_app, map_app. f_equal. cbn [Nat.add].
  rewrite <- (seq_Z_shift start a b 0%nat). now rewrite Nat.add_0_r.
Qed.

Lemma seq_Z_app0 (a b : nat) :
  map Z.of_nat (seq 0%nat (a + b))
  = map Z.of_nat (seq 0%nat a)
    ++ map (fun i => Z.of_nat a + Z.of_nat i) (seq 0%nat b).
Proof.
  pose proof (seq_Z_app 0 a b) as E.
  rewrite !(map_ext (fun i => 0 + Z.of_nat i) Z.of_nat) in E by (intros; lia).
  rewrite E. apply f_equal, map_ext. intros i. lia.
Qed.

Lemma gather_range (loc_rows : list Z) (rank : nat) :
  col_end (gather loc_rows rank) - col_beg (gather loc_rows rank)
  = if (rank =? 0)%nat then glob_rows loc_rows else 0.
Proof.
  unfold gather. cbn [col_beg col_end]. destruct (rank =? 0)%nat; lia.
Qed.

Lemma other_ranks_empty (N : Z) (len : nat) :
  forall start : nat,
    (1 <= start)%nat ->
    fold_right Z.add 0
      (map (fun rank => if (rank =? 0)%nat then N else 0) (seq start len)) = 0.
Proof.
  induction len as [|len IH]; intros start Hs; [reflexivity|].
  cbn [seq map fold_right]. rewrite IH by lia.
  destruct (Nat.eqb_spec start 0); lia.
Qed.

Lemma exclusive_sum_from_nth (counts : list Z) :
  forall (start : Z) (k : nat),
    (k <= length counts)%nat ->
    nth k (exclusive_sum_from start counts) 0
    = start + fold_right Z.add 0 (firstn k counts).
Proof.
  induction counts as [|n counts IH]; intros start k Hk.
  - destruct k; simpl in *; lia.
  - destruct k as [|k]; [cbn; lia|].
    rewrite firstn_cons. cbn [exclusive_sum_from nth fold_right].
    rewrite IH by (simpl in Hk; lia). lia.
Qed.

Lemma sum_firstn_S (counts : list Z) :
  forall k : nat,
    (k < length counts)%nat ->
    fold_right Z.add 0 (firstn (S k) counts)
    = fold_right Z.add 0 (firstn k counts) + nth k counts 0.
Proof.
  induction counts as [|n counts IH]; intros k Hk; simpl in Hk; [lia|].
  destruct k as [|k]; [cbn; lia|].
  rewrite !firstn_cons. cbn [fold_right nth].
  rewrite IH by lia. lia.
Qed.

Lemma sum_firstn_nonneg (counts : list Z) (k : nat) :
  Forall (fun n => 0 <= n) counts -> 0 <= fold_right Z.add 0 (firstn k counts).
Proof.
  intros H. revert k. induction H as [|n counts Hn _ IH]; intros k.
  - destruct k; simpl; lia.
  - destruct k as [|k]; [cbn; lia|]. rewrite firstn_cons. cbn [fold_right].
    specialize (IH k). lia.
Qed.

Lemma nth_nonneg (counts : list Z) (k : nat) :
  Forall (fun n => 0 <= n) counts -> 0 <= nth k counts 0.
Proof.
  intros H. revert k. induction H as [|n counts Hn _ IH]; intros [|k]; simpl;
    try lia. apply IH.
Qed.

Lemma active_ranks_nonneg (counts : list Z) : 0 <= active_ranks counts.
Proof. unfold active_ranks. rewrite active_ranks_from. lia. Qed.

(** One target partition exactly when fewer than twice [shrink_ratio] ranks
    are active. *)
Lemma npart_value (prm : params) (counts : list Z) :
  0 < shrink_ratio prm ->
  exists parts,
    npart prm counts = Some parts
    /\ 1 <= parts <= Z.max 1 (active_ranks counts)
    /\ (parts = 1 <-> active_ranks counts < 2 * shrink_ratio prm).
Proof.
  intros Hs. unfold npart.
  destruct (Z.eqb_spec (shrink_ratio prm) 0) as [E|_]; [lia|].
  eexists. split; [reflexivity|].
  pose proof (active_ranks_nonneg counts) as Ha.
  rewrite Z.quot_div_nonneg by lia.
  set (a := active_ranks counts) in *.
  set (r := shrink_ratio prm) in *.
  assert (Hq : 0 <= a / r) by (apply Z.div_pos; lia).
  assert (Hle : a / r <= a) by (apply Z.div_le_upper_bound; nia).
  split; [lia|]. split.
  - intros E. assert (Hlt : a / r < 2) by lia.
    destruct (Z.lt_ge_cases a (2 * r)) as [|Hge]; [assumption|].
    assert (2 <= a / r) by (apply Z.div_le_lower_bound; lia). lia.
  - intros Hlt. assert (a / r < 2) by (apply Z.div_lt_upper_bound; lia). lia.
Qed.

(** The permutation of the gather on one rank: its rows keep their global
    indices. *)
Lemma gather_perm (loc_rows : list Z) (rank : nat) :
  (rank < length loc_rows)%nat ->
  perm (gather loc_rows rank)
  = map (fun i => fold_right Z.add 0 (firstn rank loc_rows) + Z.of_nat i)
        (seq 0%nat (Z.to_nat (nth rank loc_rows 0))).
Proof.
  intros Hr. unfold gather. cbn [perm]. rewrite perm_loop.
  unfold loc_col_shift, exclusive_sum.
  rewrite exclusive_sum_from_nth by lia. reflexivity.
Qed.

End repartition_facts.

(** X1.  With repartitioning enabled and row counts in range, [is_needed]
    answers true exactly when at least two ranks own rows and some rank owns
    between 1 and [min_per_proc] rows. *)
Theorem is_needed_exactly (prm : scotch.params) (loc_rows : list Z) :
  Forall (fun n => (0 <= n <= scotch.PTRDIFF_MAX)%Z) loc_rows ->
  (scotch.is_needed prm loc_rows = true <->
   scotch.enable prm = true
   /\ 1 < length (scotch.nonempty loc_rows)
   /\ exists m, In m loc_rows /\ m <> 0%Z /\ (m <= scotch.min_per_proc prm)%Z).
Proof.
  intros Hrange. rewrite scotch_facts.is_needed_as_fold.
  pose proof (scotch_facts.tally_counts loc_rows 0 scotch.PTRDIFF_MAX) as Hc.
  pose proof (scotch_facts.tally_minimum loc_rows 0 scotch.PTRDIFF_MAX) as Hm.
  destruct (fold_left scotch.tally loc_rows (0%Z, scotch.PTRDIFF_MAX))
    as [non_empty min_n]. cbn [fst snd] in Hc, Hm.
  destruct Hm as (_ & Hmin & Hwhich).
  destruct (scotch.enable prm); cbn [negb].
  - rewrite andb_true_iff, Z.ltb_lt, Z.leb_le. split.
    + intros [H1 H2]. split; [reflexivity|]. split; [lia|].
      destruct Hwhich as [Hcap|[Hin Hnz]].
      * destruct (scotch.nonempty loc_rows) as [|k ks] eqn:E; [simpl in Hc; lia|].
        assert (Hk : In k (scotch.nonempty loc_rows)) by (rewrite E; now left).
        apply filter_In in Hk. destruct Hk as [Hk Hknz].
        apply negb_true_iff, Z.eqb_neq in Hknz.
        rewrite Forall_forall in Hrange. pose proof (Hrange k Hk).
        exists k. repeat split; try assumption. lia.
      * exists min_n. repeat split; assumption.
    + intros (_ & Hn & m & Hin & Hnz & Hle). split; [lia|].
      specialize (Hmin m Hin Hnz). lia.
  - split; [discriminate | intros [E _]; discriminate].
Qed.

Lemma is_needed_exactly_witness :
  scotch.is_needed {| scotch.enable := true; scotch.min_per_proc := 10;
                      scotch.shrink_ratio := 8 |} [0; 50; 7]%Z = true.
Proof.
  apply (is_needed_exactly
           {| scotch.enable := true; scotch.min_per_proc := 10;
              scotch.shrink_ratio := 8 |} [0; 50; 7]%Z).
  - repeat (apply Forall_cons; [unfold scotch.PTRDIFF_MAX; simpl; lia|]).
    apply Forall_nil.
  - split; [reflexivity|]. split; [simpl; lia|].
    exists 7%Z. simpl. repeat split; [tauto | lia | lia].
Defined.

(** X2.  When [is_needed] asks for a repartitioning, [operator()] finds at
    least two active ranks, the very ranks [is_needed] counted. *)
Theorem is_needed_implies_two_active (prm : scotch.params) (loc_rows : list Z) :
  Forall (fun n => (0 <= n <= scotch.PTRDIFF_MAX)%Z) loc_rows ->
  scotch.is_needed prm loc_rows = true ->
  (2 <= scotch.active_ranks loc_rows)%Z
  /\ scotch.active_ranks loc_rows = Z.of_nat (length (scotch.nonempty loc_rows)).
Proof.
  intros Hrange H.
  assert (Hpos : Forall (fun n => (0 <= n)%Z) loc_rows).
  { eapply Forall_impl; [|exact Hrange]. intros n Hn. apply Hn. }
  rewrite (repartition_facts.active_ranks_nonempty loc_rows Hpos).
  split; [|reflexivity].
  rewrite scotch_facts.is_needed_as_fold in H.
  destruct (negb (scotch.enable prm)); [discriminate|].
  pose proof (scotch_facts.tally_counts loc_rows 0 scotch.PTRDIFF_MAX) as Hc.
  destruct (fold_left scotch.tally loc_rows (0%Z, scotch.PTRDIFF_MAX))
    as [non_empty min_n]. cbn [fst] in Hc.
  apply andb_true_iff in H. destruct H as [H _]. apply Z.ltb_lt in H. lia.
Qed.

Lemma is_needed_implies_two_active_witness :
  (2 <= scotch.active_ranks [5; 20]%Z)%Z.
Proof.
  apply (is_needed_implies_two_active
           {| scotch.enable := true; scotch.min_per_proc := 10;
              scotch.shrink_ratio := 8 |} [5; 20]%Z).
  - repeat (apply Forall_cons; [unfold scotch.PTRDIFF_MAX; simpl; lia|]).
    apply Forall_nil.
  - reflexivity.
Defined.

(** X3.  For a positive [shrink_ratio] the number of target partitions is
    defined, at least 1, at most the number of active ranks (or 1), and it
    is 1 exactly when fewer than twice [shrink_ratio] ranks are active. *)
Theorem npart_is_one_iff (prm : scotch.params) (loc_rows : list Z) :
  (0 < scotch.shrink_ratio prm)%Z ->
  exists parts,
    scotch.npart prm loc_rows = Some parts
    /\ (1 <= parts)%Z
    /\ (parts <= Z.max 1 (scotch.active_ranks loc_rows))%Z
    /\ (parts = 1%Z <->
        (scotch.active_ranks loc_rows < 2 * scotch.shrink_ratio prm)%Z).
Proof.
  intros Hs.
  destruct (repartition_facts.npart_value prm loc_rows Hs) as (parts & E & Hb & Hiff).
  exists parts. split; [exact E|]. split; [lia|]. split; [lia | exact Hiff].
Qed.

Lemma npart_is_one_iff_witness :
  exists parts,
    scotch.npart scotch.default_params [5; 20; 0; 3]%Z = Some parts
    /\ parts = 1%Z.
Proof.
  destruct (npart_is_one_iff scotch.default_params [5; 20; 0; 3]%Z eq_refl)
    as (parts & E & _ & _ & Hiff).
  exists parts. split; [exact E|]. apply Hiff. vm_compute. reflexivity.
Defined.

(** X4.  With a positive [shrink_ratio] and fewer than twice as many active
    ranks, [operator()] takes the gather branch whatever SCOTCH would
    answer: no SCOTCH routine is called, nothing is raised, rank 0 receives
    the column range [0, N), every other rank the empty range [N, N), and
    each local row keeps its global index [row_beg + i]. *)
Theorem repartition_gathers
    (ierr : scotch.scotch_call -> Z) (partitioned : Z -> list Z)
    (graph_perm_index : Z -> list Z -> scotch.plan)
    (prm : scotch.params) (loc_rows : list Z) (rank : nat) :
  (0 < scotch.shrink_ratio prm)%Z ->
  (scotch.active_ranks loc_rows < 2 * scotch.shrink_ratio prm)%Z ->
  exists pl,
    scotch.repartition ierr partitioned graph_perm_index prm loc_rows rank
      = Some ([], Returns pl)
    /\ scotch.col_beg pl = (if rank =? 0 then 0%Z else scotch.glob_rows loc_rows)
    /\ scotch.col_end pl = scotch.glob_rows loc_rows
    /\ scotch.perm pl
       = map (fun i => (scotch.loc_col_shift loc_rows rank + Z.of_nat i)%Z)
             (seq 0 (Z.to_nat (nth rank loc_rows 0%Z))).
Proof.
  intros Hs Ha.
  destruct (repartition_facts.npart_value prm loc_rows Hs) as (parts & E & _ & Hiff).
  unfold scotch.repartition. rewrite E.
  rewrite (proj2 Hiff Ha). cbn [Z.eqb Pos.eqb].
  eexists. split; [reflexivity|]. cbn [scotch.gather scotch.col_beg scotch.col_end scotch.perm].
  split; [reflexivity|]. split; [reflexivity|].
  apply repartition_facts.perm_loop.
Qed.

Lemma repartition_gathers_witness :
  exists pl,
    scotch.repartition (fun _ => 1%Z) (fun _ => []) 
                       (fun _ _ => {| scotch.col_beg := 0; scotch.col_end := 0;
                                      scotch.perm := [] |})
                       scotch.default_params [5; 20; 0; 3]%Z 1
      = Some ([], Returns pl)
    /\ scotch.perm pl
       = map (fun i => (scotch.loc_col_shift [5; 20; 0; 3]%Z 1 + Z.of_nat i)%Z)
             (seq 0 (Z.to_nat (nth 1 [5; 20; 0; 3]%Z 0%Z))).
Proof.
  destruct (repartition_gathers (fun _ => 1%Z) (fun _ => [])
              (fun _ _ => {| scotch.col_beg := 0; scotch.col_end := 0;
                             scotch.perm := [] |})
              scotch.default_params [5; 20; 0; 3]%Z 1 eq_refl eq_refl)
    as (pl & E & _ & _ & Hp).
  exists pl. split; assumption.
Defined.

(** X5.  In the gather branch the permutations of the ranks, taken in rank
    order, enumerate the global rows 0 .. N-1 once each and in order: the
    gather moves every row to rank 0 without renumbering, and the column
    ranges of the ranks add up to N. *)
Theorem gather_keeps_global_order (loc_rows : list Z) :
  Forall (fun n => (0 <= n)%Z) loc_rows ->
  concat (map (fun rank => scotch.perm (scotch.gather loc_rows rank))
              (seq 0 (length loc_rows)))
  = map Z.of_nat (seq 0 (Z.to_nat (scotch.glob_rows loc_rows)))
  /\ fold_right Z.add 0%Z
       (map (fun rank => (scotch.col_end (scotch.gather loc_rows rank)
                          - scotch.col_beg (scotch.gather loc_rows rank))%Z)
            (seq 0 (length loc_rows)))
     = (if length loc_rows =? 0 then 0%Z else scotch.glob_rows loc_rows).
Proof.
  intros Hpos. split.
  - assert (H : forall m, m <= length loc_rows ->
              concat (map (fun rank => scotch.perm (scotch.gather loc_rows rank))
                          (seq 0 m))
              = map Z.of_nat
                    (seq 0 (Z.to_nat (fold_right Z.add 0%Z (firstn m loc_rows))))).
    { induction m as [|m IH]; intros Hm; [reflexivity|].
      rewrite seq_S, map_app, concat_app, IH by lia.
      cbn [Nat.add map concat]. rewrite app_nil_r.
      rewrite repartition_facts.gather_perm by lia.
      rewrite repartition_facts.sum_firstn_S by lia.
      pose proof (repartition_facts.sum_firstn_nonneg loc_rows m Hpos) as H1.
      pose proof (repartition_facts.nth_nonneg loc_rows m Hpos) as H2.
      rewrite Z2Nat.inj_add by assumption.
      rewrite repartition_facts.seq_Z_app0, Z2Nat.id by assumption.
      reflexivity. }
    rewrite (H (length loc_rows) (Nat.le_refl _)), firstn_all.
    unfold scotch.glob_rows, scotch.exclusive_sum.
    now rewrite repartition_facts.exclusive_sum_from_last.
  - rewrite (map_ext _ _ (repartition_facts.gather_range loc_rows)).
    destruct loc_rows as [|n rest]; [reflexivity|].
    cbn [length seq map fold_right Nat.eqb].
    rewrite repartition_facts.other_ranks_empty by lia. lia.
Qed.

Lemma gather_keeps_global_order_witness :
  concat (map (fun rank => scotch.perm (scotch.gather [2; 0; 3]%Z rank))
              (seq 0 3))
  = map Z.of_nat (seq 0 (Z.to_nat (scotch.glob_rows [2; 0; 3]%Z))).
Proof.
  apply (gather_keeps_global_order [2; 0; 3]%Z).
  repeat (apply Forall_cons; [lia|]). apply Forall_nil.
Defined.

(** X6.  In the partitioning branch the five checked SCOTCH calls are made
    in order; if all answer 0 the strategy and the graph are released and
    the plan of [graph_perm_index] is returned; at the first nonzero answer
    an error is raised at once: no later routine is called, and neither
    [SCOTCH_stratExit] nor [SCOTCH_dgraphExit] is. *)
Theorem partition_stops_at_first_error
    (ierr : scotch.scotch_call -> Z) (partitioned : Z -> list Z)
    (graph_perm_index : Z -> list Z -> scotch.plan)
    (prm : scotch.params) (loc_rows : list Z) (rank : nat) (parts : Z) :
  scotch.npart prm loc_rows = Some parts ->
  parts <> 1%Z ->
  let checked_calls :=
    [scotch.dgraphInit; scotch.dgraphBuild; scotch.dgraphCheck;
     scotch.stratInit; scotch.dgraphPart] in
  exists calls out,
    scotch.repartition ierr partitioned graph_perm_index prm loc_rows rank
      = Some (calls, out)
    /\ ((forall c, In c checked_calls -> ierr c = 0%Z) ->
        calls = checked_calls ++ [scotch.stratExit; scotch.dgraphExit]
        /\ out = Returns (graph_perm_index parts (partitioned parts)))
    /\ ((exists c, In c checked_calls /\ ierr c <> 0%Z) ->
        out = Throws CollaboratorError
        /\ ~ In scotch.stratExit calls
        /\ ~ In scotch.dgraphExit calls
        /\ exists pre c0 post,
             checked_calls = pre ++ c0 :: post
             /\ calls = pre ++ [c0]
             /\ ierr c0 <> 0%Z
             /\ forall c, In c pre -> ierr c = 0%Z).
Proof.
  intros Hn Hp checked_calls. unfold scotch.repartition. rewrite Hn.
  destruct (Z.eqb_spec parts 1) as [E|_]; [contradiction|].
  unfold scotch.partition, scotch.bind, scotch.checked, scotch.unchecked,
    scotch.check, scotch.ret.
  assert (Hnot : forall pre c0,
            (exists post, checked_calls = pre ++ c0 :: post) ->
            ~ In scotch.stratExit (pre ++ [c0])
            /\ ~ In scotch.dgraphExit (pre ++ [c0])).
  { intros pre c0 [post E].
    assert (Hsub : forall c, In c (pre ++ [c0]) -> In c checked_calls).
    { intros c Hc. rewrite E. apply in_app_or in Hc. apply in_or_app.
      destruct Hc as [Hc|[<-|[]]]; [now left | right; now left]. }
    split; intros Hin; apply Hsub in Hin; unfold checked_calls in Hin; simpl in Hin;
      repeat (destruct Hin as [Hin|Hin]; [discriminate|]); exact Hin. }
  destruct (Z.eqb_spec (ierr scotch.dgraphInit) 0) as [E1|E1];
    [destruct (Z.eqb_spec (ierr scotch.dgraphBuild) 0) as [E2|E2];
     [destruct (Z.eqb_spec (ierr scotch.dgraphCheck) 0) as [E3|E3];
      [destruct (Z.eqb_spec (ierr scotch.stratInit) 0) as [E4|E4];
       [destruct (Z.eqb_spec (ierr scotch.dgraphPart) 0) as [E5|E5]|]|]|]|];
    cbn [app]; eexists; eexists; (split; [reflexivity|]).
  - split; [intros _; split; reflexivity|].
    intros (c & Hc & Hne). exfalso. unfold checked_calls in Hc. simpl in Hc.
    repeat (destruct Hc as [<-|Hc]; [contradiction|]). exact Hc.
  - split; [intros Hall; exfalso; apply E5, Hall; simpl; tauto|].
    intros _. split; [reflexivity|].
    destruct (Hnot [scotch.dgraphInit; scotch.dgraphBuild; scotch.dgraphCheck;
                    scotch.stratInit] scotch.dgraphPart
                (ex_intro _ [] eq_refl)) as [H1 H2].
    split; [exact H1|]. split; [exact H2|].
    exists [scotch.dgraphInit; scotch.dgraphBuild; scotch.dgraphCheck; scotch.stratInit],
           scotch.dgraphPart, [].
    repeat split; try assumption.
    intros c Hc. simpl in Hc. repeat (destruct Hc as [<-|Hc]; [assumption|]).
    contradiction.
  - split; [intros Hall; exfalso; apply E4, Hall; simpl; tauto|].
    intros _. split; [reflexivity|].
    destruct (Hnot [scotch.dgraphInit; scotch.dgraphBuild; scotch.dgraphCheck]
                scotch.stratInit (ex_intro _ [scotch.dgraphPart] eq_refl)) as [H1 H2].
    split; [exact H1|]. split; [exact H2|].
    exists [scotch.dgraphInit; scotch.dgraphBuild; scotch.dgraphCheck],
           scotch.stratInit, [scotch.dgraphPart].
    repeat split; try assumption.
    intros c Hc. simpl in Hc. repeat (destruct Hc as [<-|Hc]; [assumption|]).
    contradiction.
  - split; [intros Hall; exfalso; apply E3, Hall; simpl; tauto|].
    intros _. split; [reflexivity|].
    destruct (Hnot [scotch.dgraphInit; scotch.dgraphBuild] scotch.dgraphCheck
                (ex_intro _ [scotch.stratInit; scotch.dgraphPart] eq_refl))
      as [H1 H2].
    split; [exact H1|]. split; [exact H2|].
    exists [scotch.dgraphInit; scotch.dgraphBuild], scotch.dgraphCheck,
           [scotch.stratInit; scotch.dgraphPart].
    repeat split; try assumption.
    intros c Hc. simpl in Hc. repeat (destruct Hc as [<-|Hc]; [assumption|]).
    contradiction.
  - split; [intros Hall; exfalso; apply E2, Hall; simpl; tauto|].
    intros _. split; [reflexivity|].
    destruct (Hnot [scotch.dgraphInit] scotch.dgraphBuild
                (ex_intro _ [scotch.dgraphCheck; scotch.stratInit; scotch.dgraphPart]
                          eq_refl)) as [H1 H2].
    split; [exact H1|]. split; [exact H2|].
    exists [scotch.dgraphInit], scotch.dgraphBuild,
           [scotch.dgraphCheck; scotch.stratInit; scotch.dgraphPart].
    repeat split; try assumption.
    intros c Hc. simpl in Hc. repeat (destruct Hc as [<-|Hc]; [assumption|]).
    contradiction.
  - split; [intros Hall; exfalso; apply E1, Hall; simpl; tauto|].
    intros _. split; [reflexivity|].
    destruct (Hnot [] scotch.dgraphInit
                (ex_intro _ [scotch.dgraphBuild; scotch.dgraphCheck;
                             scotch.stratInit; scotch.dgraphPart] eq_refl))
      as [H1 H2].
    split; [exact H1|]. split; [exact H2|].
    exists [], scotch.dgraphInit,
           [scotch.dgraphBuild; scotch.dgraphCheck; scotch.stratInit; scotch.dgraphPart].
    repeat split; try assumption. intros c [].
Qed.

Lemma partition_stops_at_first_error_witness :
  exists calls out,
    scotch.repartition
      (fun c => match c with scotch.dgraphCheck => 3%Z | _ => 0%Z end)
      (fun _ => [0; 1]%Z)
      (fun _ _ => {| scotch.col_beg := 0; scotch.col_end := 0; scotch.perm := [] |})
      {| scotch.enable := true; scotch.min_per_proc := 10; scotch.shrink_ratio := 1 |}
      [5; 20]%Z 0
    = Some (calls, out)
    /\ out = Throws CollaboratorError
    /\ ~ In scotch.dgraphExit calls.
Proof.
  destruct (partition_stops_at_first_error
              (fun c => match c with scotch.dgraphCheck => 3%Z | _ => 0%Z end)
              (fun _ => [0; 1]%Z)
              (fun _ _ => {| scotch.col_beg := 0; scotch.col_end := 0;
                             scotch.perm := [] |})
              {| scotch.enable := true; scotch.min_per_proc := 10;
                 scotch.shrink_ratio := 1 |}
              [5; 20]%Z 0 2%Z eq_refl ltac:(discriminate))
    as (calls & out & E & _ & Hfail).
  exists calls, out. split; [exact E|].
  destruct Hfail as (Ho & _ & Hd & _).
  - exists scotch.dgraphCheck. split; [simpl; tauto | discriminate].
  - split; assumption.
Defined.

(* ================================================================= *)
(** * Further properties of the transfer operators *)

Module prolongation_facts.
Import aggregation.

Lemma fill_P_out_of_range (ids : list Z) (rows : list nat) :
  forall (ptr col : list nat),
    (exists i, In i rows /\ length ids <= i) ->
    fill_P ids rows ptr col = None.
Proof.
  induction rows as [|i rows IH]; intros ptr col (j & Hj & Hlen); [contradiction|].
  cbn [fill_P]. destruct (nth_error ids i) as [a|] eqn:E; [|reflexivity].
  apply IH. destruct Hj as [<-|Hj].
  - assert (Hi : i < length ids) by (apply nth_error_Some; congruence). lia.
  - exists j. split; assumption.
Qed.

Lemma offsets_length (lens : list nat) (start : nat) :
  length (offsets start lens) = S (length lens).
Proof.
  revert start. induction lens as [|k lens IH]; intros start; simpl;
    [reflexivity | now rewrite IH].
Qed.

Lemma offsets_step (lens : list nat) :
  forall (start i : nat),
    i < length lens ->
    nth (S i) (offsets start lens) 0 = nth i (offsets start lens) 0 + nth i lens 0.
Proof.
  induction lens as [|k lens IH]; intros start i Hi; simpl in Hi; [lia|].
  destruct i as [|i].
  - cbn [offsets nth]. now rewrite (offsets_unfold (start + k)).
  - cbn [offsets nth]. apply IH. lia.
Qed.

Lemma offsets_last (lens : list nat) (start : nat) :
  nth (length lens) (offsets start lens) 0 = start + fold_right Nat.add 0 lens.
Proof.
  revert start. induction lens as [|k lens IH]; intros start; simpl; [lia|].
  rewrite IH. lia.
Qed.

Lemma width_sum (ids : list Z) :
  fold_right Nat.add 0 (map width ids)
  = length (filter (fun a => (0 <=? a)%Z) ids).
Proof.
  induction ids as [|a ids IH]; [reflexivity|]. cbn [map fold_right filter].
  rewrite IH. unfold width. destruct (0 <=? a)%Z; reflexivity.
Qed.

Lemma kept_all (ids : list Z) :
  length (filter (fun a => (0 <=? a)%Z) ids) = length ids
  <-> Forall (fun a => (0 <= a)%Z) ids.
Proof.
  induction ids as [|a ids IH]; [split; [constructor | reflexivity]|].
  cbn [filter length]. pose proof (aggregation_facts.kept_le ids) as Hle.
  destruct (Z.leb_spec 0 a) as [Ha|Ha]; cbn [length].
  - split.
    + intros E. constructor; [exact Ha | apply IH; lia].
    + intros H. inversion H; subst. f_equal. now apply IH.
  - split; [lia|]. intros H. inversion H; subst. lia.
Qed.

End prolongation_facts.

(** X7.  [transfer_operators] reads [aggr.id[i]] for every row i of [A] and
    no further: with fewer ids than rows it reads past the end of the
    vector, with at least as many the result is the one built from the
    first [rows(A)] ids, whatever follows them. *)
Theorem transfer_operators_reads_n_ids
    (make_aggregates : crs -> Aggregates.params -> Aggregates.t)
    (A : crs) (prm : aggregation.params) :
  let aggr := make_aggregates A (aggregation.aggr prm) in
  (length (Aggregates.id aggr) < nrows A ->
   aggregation.transfer_operators make_aggregates A prm = None)
  /\ (nrows A <= length (Aggregates.id aggr) ->
      forall other : crs -> Aggregates.params -> Aggregates.t,
        Aggregates.count (other A (aggregation.aggr prm)) = Aggregates.count aggr ->
        firstn (nrows A) (Aggregates.id (other A (aggregation.aggr prm)))
          = firstn (nrows A) (Aggregates.id aggr) ->
        aggregation.transfer_operators other A prm
          = aggregation.transfer_operators make_aggregates A prm
        /\ aggregation.transfer_operators make_aggregates A prm <> None).
Proof.
  intros aggr. split.
  - intros Hlt. unfold aggregation.transfer_operators. fold aggr.
    rewrite prolongation_facts.fill_P_out_of_range; [reflexivity|].
    exists (length (Aggregates.id aggr)). split; [apply in_seq; lia | lia].
  - intros Hle other Hcount Hids.
    pose proof (aggregation_facts.transfer_operators_value make_aggregates A prm) as H1.
    pose proof (aggregation_facts.transfer_operators_value other A prm) as H2.
    cbn zeta in H1, H2. fold aggr in H1. specialize (H1 Hle).
    assert (Hle' : nrows A <= length (Aggregates.id (other A (aggregation.aggr prm)))).
    { apply (f_equal (@length _)) in Hids. rewrite !length_firstn in Hids. lia. }
    specialize (H2 Hle'). rewrite Hids, Hcount in H2.
    rewrite H1, H2. split; [reflexivity | discriminate].
Qed.

Lemma transfer_operators_reads_n_ids_witness :
  aggregation.transfer_operators
    (fun _ _ => {| Aggregates.count := 1; Aggregates.id := [0; -1]%Z |})
    Example.A_iso aggregation.default_params = None.
Proof.
  apply (proj1 (transfer_operators_reads_n_ids
                  (fun _ _ => {| Aggregates.count := 1; Aggregates.id := [0; -1]%Z |})
                  Example.A_iso aggregation.default_params)).
  vm_compute. lia.
Defined.

(** X8.  The prolongation is well formed as to its row offsets and columns:
    [ptr] has one entry more than there are rows, starts at 0, grows by 0 or
    1 from row to row, and ends at the number of stored columns, which is the
    number of rows that belong to an aggregate; when every id is below
    [count], every stored column is below [ncols]. *)
Theorem prolongation_offsets_well_formed
    (make_aggregates : crs -> Aggregates.params -> Aggregates.t)
    (A : crs) (prm : aggregation.params) (P R : crs) :
  let aggr := make_aggregates A (aggregation.aggr prm) in
  length (Aggregates.id aggr) = nrows A ->
  aggregation.transfer_operators make_aggregates A prm = Some (P, R) ->
  length (ptr P) = S (nrows P)
  /\ nth 0 (ptr P) 0 = 0
  /\ (forall i, i < nrows P ->
        nth i (ptr P) 0 <= nth (S i) (ptr P) 0 <= S (nth i (ptr P) 0))
  /\ nonzeros P = length (col P)
  /\ length (col P)
     = length (filter (fun a => (0 <=? a)%Z) (Aggregates.id aggr))
  /\ (Forall (fun a => (a < Z.of_nat (Aggregates.count aggr))%Z) (Aggregates.id aggr) ->
      Forall (fun c => c < ncols P) (col P)).
Proof.
  intros aggr Hlen E.
  pose proof (aggregation_facts.transfer_operators_value make_aggregates A prm) as H.
  cbn zeta in H. fold aggr in H. specialize (H ltac:(lia)).
  rewrite <- Hlen, firstn_all in H. rewrite H in E.
  injection E as <- _. unfold nonzeros. cbn [ptr col nrows ncols].
  split; [now rewrite prolongation_facts.offsets_length, length_map|].
  split; [now rewrite offsets_unfold|].
  split; [|split; [|split]].
  - intros i Hi. rewrite prolongation_facts.offsets_step by (now rewrite length_map).
    rewrite (nth_indep (map _ _) 0 (aggregation.width 0)) by (now rewrite length_map).
    rewrite map_nth. unfold aggregation.width.
    destruct (0 <=? nth i (Aggregates.id aggr) 0)%Z; lia.
  - rewrite <- (length_map aggregation.width (Aggregates.id aggr)) at 1.
    rewrite prolongation_facts.offsets_last, prolongation_facts.width_sum.
    now rewrite length_map.
  - now rewrite length_map.
  - intros Hids. rewrite Forall_forall in *. intros c Hc.
    apply in_map_iff in Hc. destruct Hc as (a & <- & Ha).
    apply filter_In in Ha. destruct Ha as [Ha Hpos].
    apply Z.leb_le in Hpos. specialize (Hids a Ha). lia.
Qed.

Lemma prolongation_offsets_well_formed_witness :
  nonzeros Example.P_iso = length (col Example.P_iso).
Proof.
  apply (prolongation_offsets_well_formed Example.single_aggregate Example.A_iso
           aggregation.default_params Example.P_iso
           (transpose Example.P_iso) eq_refl eq_refl).
Defined.

(** X9.  The coefficient array of the prolongation has as many entries as
    the matrix stores columns exactly when no row was left out of the
    aggregates; with a row left out it is longer. *)
Theorem prolongation_values_fit_iff_all_aggregated
    (make_aggregates : crs -> Aggregates.params -> Aggregates.t)
    (A : crs) (prm : aggregation.params) (P R : crs) :
  let aggr := make_aggregates A (aggregation.aggr prm) in
  length (Aggregates.id aggr) = nrows A ->
  aggregation.transfer_operators make_aggregates A prm = Some (P, R) ->
  length (col P) <= length (val P)
  /\ (length (val P) = length (col P)
      <-> Forall (fun a => (0 <= a)%Z) (Aggregates.id aggr)).
Proof.
  intros aggr Hlen E.
  pose proof (aggregation_facts.transfer_operators_value make_aggregates A prm) as H.
  cbn zeta in H. fold aggr in H. specialize (H ltac:(lia)).
  rewrite <- Hlen, firstn_all in H. rewrite H in E.
  injection E as <- _. cbn [val col].
  rewrite repeat_length, length_map.
  pose proof (aggregation_facts.kept_le (Aggregates.id aggr)) as Hle.
  split; [exact Hle|].
  rewrite <- prolongation_facts.kept_all. split; intros ->; reflexivity.
Qed.

Lemma prolongation_values_fit_iff_all_aggregated_witness :
  length (col (fst (Example.transfer Example.A0)))
  <= length (val (fst (Example.transfer Example.A0))).
Proof.
  apply (prolongation_values_fit_iff_all_aggregated Example.pairs_aggregate
           Example.A0 aggregation.default_params
           (fst (Example.transfer Example.A0)) (snd (Example.transfer Example.A0))
           eq_refl eq_refl).
Defined.

Lemma prod_nth (M : crs) (x : vector) (i : nat) :
  i < nrows M ->
  nth i (prod M x) zero
  = fold_left (fun acc cv => vplus acc (vtimes (snd cv) (nth (fst cv) x zero)))
              (row M i) zero.
Proof.
  intros Hi. unfold prod.
  rewrite (nth_indep _ zero
             (fold_left (fun acc cv => vplus acc (vtimes (snd cv) (nth (fst cv) x zero)))
                        (row M 0) zero))
    by (now rewrite length_map, length_seq).
  rewrite (map_nth (fun k => fold_left _ (row M k) zero)), seq_nth by assumption.
  reflexivity.
Qed.

Lemma veq_zero_plus_one_times (v : value_t) : veq (vplus zero (vtimes one v)) v.
Proof.
  destruct v as [q|]; simpl; [|exact I]. ring.
Qed.

(** X10.  Applied to a coarse vector, the prolongation copies to each fine
    row the entry of its aggregate, and gives exactly zero to a row that was
    left out of the aggregates. *)
Theorem prolongation_injects
    (make_aggregates : crs -> Aggregates.params -> Aggregates.t)
    (A : crs) (prm : aggregation.params) (P R : crs) (e : vector) :
  let aggr := make_aggregates A (aggregation.aggr prm) in
  length (Aggregates.id aggr) = nrows A ->
  aggregation.transfer_operators make_aggregates A prm = Some (P, R) ->
  length (prod P e) = nrows A
  /\ forall i, i < nrows A ->
       let a := nth i (Aggregates.id aggr) 0%Z in
       ((a < 0)%Z -> nth i (prod P e) zero = zero)
       /\ ((0 <= a)%Z -> veq (nth i (prod P e) zero) (nth (Z.to_nat a) e zero)).
Proof.
  intros aggr Hlen E.
  pose proof (aggregation_facts.transfer_operators_value make_aggregates A prm) as H.
  cbn zeta in H. fold aggr in H. specialize (H ltac:(lia)).
  rewrite <- Hlen, firstn_all in H. rewrite H in E.
  injection E as <- _. rewrite prod_length. cbn [nrows].
  split; [exact Hlen|].
  intros i Hi. rewrite <- Hlen in Hi.
  rewrite prod_nth by exact Hi.
  rewrite aggregation_facts.row_of_prolongation by exact Hi.
  cbv zeta. unfold aggregation.injection_row. split; intros Ha.
  - apply Z.leb_gt in Ha. rewrite Ha. reflexivity.
  - apply Z.leb_le in Ha. rewrite Ha. cbn [fold_left fst snd].
    apply veq_zero_plus_one_times.
Qed.

Lemma prolongation_injects_witness :
  nth 2 (prod Example.P_iso [Fin 5]) zero = zero.
Proof.
  refine (proj1 (proj2 (prolongation_injects Example.single_aggregate Example.A_iso
                          aggregation.default_params Example.P_iso
                          (transpose Example.P_iso) [Fin 5] eq_refl eq_refl)
                       2 _) _).
  - simpl. lia.
  - vm_compute. reflexivity.
Defined.

(* ================================================================= *)
(** * Further properties of the levels and their cycles *)

(** X11.  The constructor of a level sizes the K-cycle vectors exactly when
    the level is not the finest, [kcycle] is not zero, the level index is a
    multiple of [kcycle] and the matrix has a row; the constructor of the
    coarsest level never does.  So [kcycle = 0] disables the K-cycle on
    every level, and the finest level never runs it. *)
Theorem kcycle_gate (prm : level.params) (nlevel : nat) :
  (forall a p r,
     ViennaCL.kcycle_enabled (ViennaCL.make_level a p r prm nlevel) = true
     <-> nlevel <> 0 /\ level.kcycle prm <> 0
         /\ nlevel mod level.kcycle prm = 0 /\ nrows a <> 0)
  /\ (forall a ai,
        ViennaCL.kcycle_enabled (ViennaCL.make_coarsest a ai prm nlevel) = false).
Proof.
  split; [|reflexivity].
  intros a p r. unfold ViennaCL.kcycle_enabled, ViennaCL.make_level.
  cbn [ViennaCL.cg].
  destruct (Nat.eqb_spec nlevel 0) as [E0|E0]; cbn [negb andb].
  - cbn. split; [discriminate | intros (H & _); contradiction].
  - destruct (Nat.eqb_spec (level.kcycle prm) 0) as [Ek|Ek]; cbn [negb andb].
    + cbn. split; [discriminate | intros (_ & H & _); contradiction].
    + destruct (Nat.eqb_spec (nlevel mod level.kcycle prm) 0) as [Em|Em].
      * cbn [repeat nth]. unfold zeros. rewrite repeat_length.
        destruct (Nat.eqb_spec (nrows a) 0) as [Er|Er]; cbn [negb].
        -- split; [discriminate | intros (_ & _ & _ & H); contradiction].
        -- split; [intros _; repeat split; assumption | reflexivity].
      * cbn. split; [discriminate | intros (_ & _ & H & _); contradiction].
Qed.

(** X12.  One relaxation step writes [x] and the work vector [t] of the
    level and nothing else: [rhs] and every other vector keep their
    contents, [x] keeps its size, and [t] is left holding the residual
    divided by the diagonal. *)
Theorem relax_writes_x_and_t
    (L : ViennaCL.instance) (lvl : nat) (rhs x : ViennaCL.vref) (st : ViennaCL.store) :
  ViennaCL.vref_eqb x (ViennaCL.lvl_t lvl) = false ->
  ViennaCL.vref_eqb rhs (ViennaCL.lvl_t lvl) = false ->
  let st' := ViennaCL.relax L lvl rhs x st in
  (forall r, ViennaCL.vref_eqb r x = false ->
             ViennaCL.vref_eqb r (ViennaCL.lvl_t lvl) = false -> st' r = st r)
  /\ length (st' x) = length (st x)
  /\ st' (ViennaCL.lvl_t lvl)
     = element_div (vec_sub (st rhs) (prod (ViennaCL.A L) (st x))) (ViennaCL.d L).
Proof.
  intros Hx Hrhs st'. split; [|split].
  - intros r H1 H2. now apply ViennaCL_facts.relax_frame.
  - unfold st'. rewrite ViennaCL_facts.relax_x by assumption.
    apply ViennaCL_facts.relax_spec_length.
  - unfold st', ViennaCL.relax.
    rewrite ViennaCL_facts.assign_other
      by (rewrite ViennaCL_facts.vref_eqb_sym; exact Hx).
    rewrite ViennaCL_facts.assign_same.
    rewrite ViennaCL_facts.assign_same.
    rewrite (ViennaCL_facts.assign_other _ _ _ _ Hrhs).
    rewrite ViennaCL_facts.assign_same.
    reflexivity.
Qed.

Lemma relax_writes_x_and_t_witness :
  ViennaCL.relax Example.level0 0 (ViennaCL.caller 0) (ViennaCL.caller 1)
                 Example.initial_store (ViennaCL.caller 0)
  = Example.initial_store (ViennaCL.caller 0).
Proof.
  apply (relax_writes_x_and_t Example.level0 0 (ViennaCL.caller 0)
           (ViennaCL.caller 1) Example.initial_store eq_refl eq_refl);
    reflexivity.
Defined.

(** X13.  A cycle at a level that is not the last writes [x], the work
    vector [t] of its level and work vectors of the levels below, and
    nothing else: [rhs] and every vector it does not own keep their
    contents, [x] keeps its size, and the work vectors below keep the sizes
    the next cycle relies on. *)
Theorem cycle_touches_only_its_vectors
    (prm : level.params) (L N : ViennaCL.instance) (rest : list ViennaCL.instance)
    (lvl : nat) (rhs x : ViennaCL.vref) (st : ViennaCL.store) :
  ViennaCL.hierarchy_wf (L :: N :: rest) ->
  ViennaCL.owned_by_cycle lvl rhs = false ->
  ViennaCL.owned_by_cycle lvl x = false ->
  ViennaCL.vref_eqb rhs x = false ->
  ViennaCL.work_sized (N :: rest) (S lvl) st ->
  let st' := ViennaCL.cycle (L :: N :: rest) lvl prm rhs x st in
  (forall r, ViennaCL.owned_by_cycle lvl r = false ->
             ViennaCL.vref_eqb r x = false -> st' r = st r)
  /\ st' rhs = st rhs
  /\ length (st' x) = length (st x)
  /\ ViennaCL.work_sized (N :: rest) (S lvl) st'.
Proof.
  intros Hwf Hrhs Hx Hrx Hws st'.
  destruct (cycle_facts.cycle_ok prm (L :: N :: rest) lvl rhs x st
              Hwf Hrhs Hx Hrx Hws) as (Hv & Hf & Hs & _).
  split; [exact Hf|]. split; [now apply Hf|]. split; [|exact Hs].
  etransitivity; [exact (f_equal (@length _) Hv)|].
  cbn [ViennaCL.vcycle_spec]. apply cycle_facts.iterate_vcycle_pass_length.
Qed.

Lemma cycle_touches_only_its_vectors_witness :
  ViennaCL.cycle [Example.level0; Example.level1; Example.level2] 0
                 Example.cycle_params (ViennaCL.caller 0) (ViennaCL.caller 1)
                 Example.initial_store (ViennaCL.caller 0)
  = Example.initial_store (ViennaCL.caller 0).
Proof.
  refine (proj1 (proj2 (cycle_touches_only_its_vectors Example.cycle_params
                          Example.level0 Example.level1 [Example.level2] 0
                          (ViennaCL.caller 0) (ViennaCL.caller 1)
                          Example.initial_store _ eq_refl eq_refl eq_refl _))).
  - vm_compute. repeat split; first [reflexivity | now left | now right].
  - vm_compute. repeat split; try reflexivity; intros; first [reflexivity | discriminate].
Defined.

(** X14.  What a cycle leaves in [x] does not depend on what the work
    vectors held before: two stores that agree on [rhs] and [x] and have
    the work vectors sized give the same [x]. *)
Theorem cycle_ignores_scratch_contents
    (prm : level.params) (L N : ViennaCL.instance) (rest : list ViennaCL.instance)
    (lvl : nat) (rhs x : ViennaCL.vref) (st1 st2 : ViennaCL.store) :
  ViennaCL.hierarchy_wf (L :: N :: rest) ->
  ViennaCL.owned_by_cycle lvl rhs = false ->
  ViennaCL.owned_by_cycle lvl x = false ->
  ViennaCL.vref_eqb rhs x = false ->
  ViennaCL.work_sized (N :: rest) (S lvl) st1 ->
  ViennaCL.work_sized (N :: rest) (S lvl) st2 ->
  st1 rhs = st2 rhs ->
  st1 x = st2 x ->
  ViennaCL.cycle (L :: N :: rest) lvl prm rhs x st1 x
  = ViennaCL.cycle (L :: N :: rest) lvl prm rhs x st2 x.
Proof.
  intros Hwf Hrhs Hx Hrx Hws1 Hws2 Er Ex.
  destruct (cycle_facts.cycle_ok prm (L :: N :: rest) lvl rhs x st1
              Hwf Hrhs Hx Hrx Hws1) as (Hv1 & _).
  destruct (cycle_facts.cycle_ok prm (L :: N :: rest) lvl rhs x st2
              Hwf Hrhs Hx Hrx Hws2) as (Hv2 & _).
  cbv zeta in Hv1, Hv2. rewrite Hv1, Hv2, Er, Ex. reflexivity.
Qed.

(** X15.  Cycles can be repeated on the store the previous one left: the
    second cycle starts from the result of the first with the same
    right-hand side, so two cycles in a row leave in [x] the V-cycle of the
    V-cycle. *)
Theorem cycle_twice
    (prm : level.params) (L N : ViennaCL.instance) (rest : list ViennaCL.instance)
    (lvl : nat) (rhs x : ViennaCL.vref) (st : ViennaCL.store) :
  ViennaCL.hierarchy_wf (L :: N :: rest) ->
  ViennaCL.owned_by_cycle lvl rhs = false ->
  ViennaCL.owned_by_cycle lvl x = false ->
  ViennaCL.vref_eqb rhs x = false ->
  ViennaCL.work_sized (N :: rest) (S lvl) st ->
  let h := L :: N :: rest in
  ViennaCL.cycle h lvl prm rhs x (ViennaCL.cycle h lvl prm rhs x st) x
  = ViennaCL.vcycle_spec h prm (st rhs)
      (ViennaCL.vcycle_spec h prm (st rhs) (st x)).
Proof.
  intros Hwf Hrhs Hx Hrx Hws h.
  destruct (cycle_facts.cycle_ok prm h lvl rhs x st Hwf Hrhs Hx Hrx Hws)
    as (Hv & Hf & Hs & _).
  cbv zeta in Hv, Hf, Hs. cbn [tl] in Hs.
  destruct (cycle_facts.cycle_ok prm h lvl rhs x (ViennaCL.cycle h lvl prm rhs x st)
              Hwf Hrhs Hx Hrx Hs) as (Hv' & _).
  cbv zeta in Hv'. rewrite Hv', Hv, (Hf rhs Hrhs Hrx). reflexivity.
Qed.

Lemma cycle_ignores_scratch_contents_witness :
  ViennaCL.cycle [Example.level0; Example.level1; Example.level2] 0
                 Example.cycle_params (ViennaCL.caller 0) (ViennaCL.caller 1)
                 Example.initial_store (ViennaCL.caller 1)
  = ViennaCL.cycle [Example.level0; Example.level1; Example.level2] 0
                   Example.cycle_params (ViennaCL.caller 0) (ViennaCL.caller 1)
                   (ViennaCL.assign (ViennaCL.lvl_f 1) [one; NaN] Example.initial_store)
                   (ViennaCL.caller 1).
Proof.
  refine (cycle_ignores_scratch_contents Example.cycle_params
            Example.level0 Example.level1 [Example.level2] 0
            (ViennaCL.caller 0) (ViennaCL.caller 1) Example.initial_store
            (ViennaCL.assign (ViennaCL.lvl_f 1) [one; NaN] Example.initial_store)
            _ eq_refl eq_refl eq_refl _ _ eq_refl eq_refl).
  - vm_compute. repeat split; first [reflexivity | now left | now right].
  - vm_compute. repeat split; try reflexivity; intros; first [reflexivity | discriminate].
  - vm_compute. repeat split; try reflexivity; intros; first [reflexivity | discriminate].
Defined.

Lemma cycle_twice_witness :
  let h := [Example.level0; Example.level1; Example.level2] in
  ViennaCL.cycle h 0 Example.cycle_params (ViennaCL.caller 0) (ViennaCL.caller 1)
    (ViennaCL.cycle h 0 Example.cycle_params (ViennaCL.caller 0) (ViennaCL.caller 1)
                    Example.initial_store)
    (ViennaCL.caller 1)
  = ViennaCL.vcycle_spec h Example.cycle_params
      (Example.initial_store (ViennaCL.caller 0))
      (ViennaCL.vcycle_spec h Example.cycle_params
         (Example.initial_store (ViennaCL.caller 0))
         (Example.initial_store (ViennaCL.caller 1))).
Proof.
  refine (cycle_twice Example.cycle_params
            Example.level0 Example.level1 [Example.level2] 0
            (ViennaCL.caller 0) (ViennaCL.caller 1) Example.initial_store
            _ eq_refl eq_refl eq_refl _).
  - vm_compute. repeat split; first [reflexivity | now left | now right].
  - vm_compute. repeat split; try reflexivity; intros; first [reflexivity | discriminate].
Defined.

(* ----------------------------------------------------------------- *)
(** ** Vectors of zeros and non-finite values *)

Module null_facts.
Import ViennaCL.

Lemma null_zero : null_or_nan zero = true.
Proof. reflexivity. Qed.

Lemma vplus_null (a b : value_t) :
  null_or_nan a = true -> null_or_nan b = true -> null_or_nan (vplus a b) = true.
Proof.
  destruct a as [p|], b as [q|]; simpl; try reflexivity.
  intros Hp Hq. apply Qeq_bool_iff in Hp, Hq. apply Qeq_bool_iff.
  rewrite Hp, Hq. reflexivity.
Qed.

Lemma vminus_null (a b : value_t) :
  null_or_nan a = true -> null_or_nan b = true -> null_or_nan (vminus a b) = true.
Proof.
  destruct a as [p|], b as [q|]; simpl; try reflexivity.
  intros Hp Hq. apply Qeq_bool_iff in Hp, Hq. apply Qeq_bool_iff.
  rewrite Hp, Hq. reflexivity.
Qed.

Lemma vtimes_null_r (a b : value_t) :
  null_or_nan b = true -> null_or_nan (vtimes a b) = true.
Proof.
  destruct a as [p|], b as [q|]; simpl; try reflexivity.
  intros Hq. apply Qeq_bool_iff in Hq. apply Qeq_bool_iff.
  rewrite Hq. ring.
Qed.

Lemma vtimes_null_l (a b : value_t) :
  null_or_nan a = true -> null_or_nan (vtimes a b) = true.
Proof.
  destruct a as [p|], b as [q|]; simpl; try reflexivity.
  intros Hp. apply Qeq_bool_iff in Hp. apply Qeq_bool_iff.
  rewrite Hp. ring.
Qed.

Lemma vdivide_null_num (a b : value_t) :
  null_or_nan a = true -> null_or_nan (vdivide a b) = true.
Proof.
  destruct a as [p|], b as [q|]; simpl; try reflexivity.
  intros Hp. destruct (Qeq_bool q 0); [reflexivity|]. simpl.
  apply Qeq_bool_iff in Hp. apply Qeq_bool_iff.
  unfold Qdiv. rewrite Hp. ring.
Qed.

(** A quotient whose divisor is zero or not finite is not finite. *)
Lemma vdivide_null_den (a b : value_t) :
  null_or_nan b = true -> vdivide a b = NaN.
Proof.
  destruct a as [p|], b as [q|]; simpl; try reflexivity.
  now intros ->.
Qed.

Lemma all_null_forall (x : vector) :
  all_null x = true <-> forall a, In a x -> null_or_nan a = true.
Proof. unfold all_null. apply forallb_forall. Qed.

Lemma hd_null (x : vector) : all_null x = true -> null_or_nan (hd zero x) = true.
Proof.
  destruct x as [|a x]; [reflexivity|]. cbn. now intros H%andb_true_iff.
Qed.

Lemma tl_null (x : vector) : all_null x = true -> all_null (tl x) = true.
Proof.
  destruct x as [|a x]; [reflexivity|]. cbn. now intros H%andb_true_iff.
Qed.

Lemma nth_null (x : vector) (i : nat) :
  all_null x = true -> null_or_nan (nth i x zero) = true.
Proof.
  intros H. destruct (Nat.lt_ge_cases i (length x)) as [Hi|Hi].
  - apply all_null_forall with (x := x); [exact H | now apply nth_In].
  - now rewrite nth_overflow.
Qed.

(** Element by element, when the operation keeps zeros. *)
Lemma zip_null (op : value_t -> value_t -> value_t) (x : vector) :
  (forall a b, null_or_nan a = true -> null_or_nan b = true ->
               null_or_nan (op a b) = true) ->
  forall y, all_null x = true -> all_null y = true ->
            all_null (zip_with op x y) = true.
Proof.
  intros Hop. induction x as [|a x IH]; intros y Hx Hy; [reflexivity|].
  cbn in Hx. apply andb_true_iff in Hx. destruct Hx as [Ha Hx].
  cbn. apply andb_true_iff. split.
  - apply Hop; [exact Ha | now apply hd_null].
  - apply IH; [exact Hx | now apply tl_null].
Qed.

Lemma zip_null_left (op : value_t -> value_t -> value_t) (x : vector) :
  (forall a b, null_or_nan a = true -> null_or_nan (op a b) = true) ->
  forall y, all_null x = true -> all_null (zip_with op x y) = true.
Proof.
  intros Hop. induction x as [|a x IH]; intros y Hx; [reflexivity|].
  cbn in Hx. apply andb_true_iff in Hx. destruct Hx as [Ha Hx].
  cbn. apply andb_true_iff. split; [now apply Hop | now apply IH].
Qed.

Lemma scale_null (a : value_t) (x : vector) :
  all_null x = true -> all_null (vec_scale a x) = true.
Proof.
  intros Hx. apply all_null_forall. intros b Hb. unfold vec_scale in Hb.
  apply in_map_iff in Hb. destruct Hb as (c & <- & Hc).
  apply vtimes_null_r. now apply (proj1 (all_null_forall x) Hx).
Qed.

Lemma zeros_null (n : nat) : all_null (zeros n) = true.
Proof.
  unfold zeros. induction n as [|n IH]; [reflexivity|]. cbn. exact IH.
Qed.

Lemma sum_null (l : vector) :
  forall acc, null_or_nan acc = true -> all_null l = true ->
              null_or_nan (fold_left vplus l acc) = true.
Proof.
  induction l as [|a l IH]; intros acc Hacc Hl; [exact Hacc|].
  cbn in Hl. apply andb_true_iff in Hl. destruct Hl as [Ha Hl].
  cbn [fold_left]. apply IH; [now apply vplus_null | exact Hl].
Qed.

Lemma inner_prod_null (x y : vector) :
  all_null x = true -> null_or_nan (inner_prod x y) = true.
Proof.
  intros Hx. unfold inner_prod. apply sum_null; [reflexivity|].
  apply zip_null_left; [|exact Hx]. intros a b Ha. now apply vtimes_null_l.
Qed.

Lemma prod_null (M : crs) (x : vector) :
  all_null x = true -> all_null (prod M x) = true.
Proof.
  intros Hx. apply all_null_forall. intros a Ha. unfold prod in Ha.
  apply in_map_iff in Ha. destruct Ha as (i & <- & _).
  assert (H : forall r acc, null_or_nan acc = true ->
            null_or_nan
              (fold_left (fun acc cv => vplus acc (vtimes (snd cv) (nth (fst cv) x zero)))
                         r acc) = true).
  { induction r as [|cv r IH]; intros acc Hacc; [exact Hacc|].
    cbn [fold_left]. apply IH. apply vplus_null; [exact Hacc|].
    apply vtimes_null_r. now apply nth_null. }
  now apply H.
Qed.

Lemma relax_spec_null (L : instance) (b x : vector) :
  all_null b = true -> all_null x = true -> all_null (relax_spec L b x) = true.
Proof.
  intros Hb Hx. unfold relax_spec, vec_add, element_div, vec_sub.
  apply zip_null; [apply vplus_null | exact Hx |].
  apply scale_null. apply zip_null_left; [apply vdivide_null_num|].
  apply zip_null; [apply vminus_null | exact Hb | now apply prod_null].
Qed.

Lemma iterate_null (step : vector -> vector) (n : nat) :
  (forall x, all_null x = true -> all_null (step x) = true) ->
  forall x, all_null x = true -> all_null (iterate n step x) = true.
Proof.
  intros Hstep. induction n as [|n IH]; intros x Hx; [exact Hx|].
  cbn. apply IH. now apply Hstep.
Qed.

(** One inner iteration of the K-cycle keeps [x], [r] and [p] within zeros
    and non-finite values when the V-cycle does. *)
Lemma kcycle_step_null (V : vector -> vector -> vector) (L : instance)
    (first : bool) (k : kstate) :
  (forall b x, all_null b = true -> all_null x = true -> all_null (V b x) = true) ->
  all_null (kr k) = true ->
  (first = false -> all_null (kp k) = true) ->
  (all_null (kx k) = true -> all_null (kx (kcycle_step V L first k)) = true)
  /\ all_null (kr (kcycle_step V L first k)) = true
  /\ all_null (kp (kcycle_step V L first k)) = true.
Proof.
  intros HV Hr Hp. unfold kcycle_step. cbn [kx kr kp].
  assert (Hs : all_null (V (kr k) (zeros (nrows (A L)))) = true)
    by (apply HV; [exact Hr | apply zeros_null]).
  assert (Hp' : all_null
                  (if first then V (kr k) (zeros (nrows (A L)))
                   else vec_add (V (kr k) (zeros (nrows (A L))))
                          (vec_scale
                             (vdivide (inner_prod (kr k) (V (kr k) (zeros (nrows (A L)))))
                                      (krho k)) (kp k))) = true).
  { destruct first; [exact Hs|].
    apply zip_null; [apply vplus_null | exact Hs |].
    apply scale_null. now apply Hp. }
  split; [|split; [|exact Hp']].
  - intros Hx. apply zip_null; [apply vplus_null | exact Hx | now apply scale_null].
  - apply zip_null; [apply vminus_null | exact Hr |].
    apply scale_null. now apply prod_null.
Qed.

(** The V-cycle of a right-hand side of zeros, from zeros, holds only zeros
    and non-finite values, whatever the matrices. *)
Lemma vcycle_spec_null (prm : level.params) (levels : list instance) :
  forall b x, all_null b = true -> all_null x = true ->
              all_null (vcycle_spec levels prm b x) = true.
Proof.
  induction levels as [|L rest IH]; intros b x Hb Hx; [exact Hx|].
  destruct rest as [|N rest]; [now apply prod_null|].
  cbn [vcycle_spec]. apply iterate_null; [|exact Hx].
  intros y Hy. unfold vcycle_pass.
  apply iterate_null; [intros z Hz; now apply relax_spec_null|].
  assert (Hy1 : all_null (iterate (level.npre prm) (relax_spec L b) y) = true)
    by (apply iterate_null; [intros z Hz; now apply relax_spec_null | exact Hy]).
  apply zip_null; [apply vplus_null | exact Hy1 |].
  apply prod_null.
  assert (Hf : all_null
                 (prod (R L)
                    (vec_sub b (prod (A L) (iterate (level.npre prm) (relax_spec L b) y))))
               = true).
  { apply prod_null. apply zip_null; [apply vminus_null | exact Hb |].
    now apply prod_null. }
  destruct (kcycle_enabled N).
  - unfold ksolve_spec. destruct rest as [|N' rest]; [now apply prod_null|].
    unfold kcycle_spec.
    destruct (kcycle_step_null (vcycle_spec (N :: N' :: rest) prm) N true
                {| kx := zeros (nrows (A N));
                   kr := prod (R L)
                           (vec_sub b (prod (A L)
                              (iterate (level.npre prm) (relax_spec L b) y)));
                   kp := []; krho := zero |} IH Hf
                ltac:(discriminate)) as (H1 & H2 & H3).
    destruct (kcycle_step_null (vcycle_spec (N :: N' :: rest) prm) N false _ IH
                H2 (fun _ => H3)) as (H4 & _).
    apply H4, H1. apply zeros_null.
  - apply IH; [exact Hf | apply zeros_null].
Qed.

(** After an inner iteration whose right-hand side holds only zeros and
    non-finite values, every entry of [x] is non-finite: the step length is
    a quotient by zero. *)
Lemma kcycle_step_nan (V : vector -> vector -> vector) (L : instance)
    (first : bool) (k : kstate) :
  (forall b x, all_null b = true -> all_null x = true -> all_null (V b x) = true) ->
  (forall b x, length (V b x) = length x) ->
  all_null (kr k) = true ->
  (first = false -> all_null (kp k) = true) ->
  length (kx k) <= nrows (A L) ->
  kx (kcycle_step V L first k) = map (fun _ => NaN) (kx k).
Proof.
  intros HV Hlen Hr Hp Hx. unfold kcycle_step. cbn [kx].
  set (s := V (kr k) (zeros (nrows (A L)))).
  assert (Hs : all_null s = true) by (apply HV; [exact Hr | apply zeros_null]).
  assert (Hsl : length s = nrows (A L)).
  { unfold s. rewrite Hlen. unfold zeros. apply repeat_length. }
  set (p := if first then s
            else vec_add s (vec_scale (vdivide (inner_prod (kr k) s) (krho k)) (kp k))).
  assert (Hpn : all_null p = true).
  { unfold p. destruct first; [exact Hs|].
    apply zip_null; [apply vplus_null | exact Hs |]. apply scale_null. now apply Hp. }
  assert (Hpl' : length p = nrows (A L)).
  { unfold p. destruct first; [exact Hsl|].
    unfold vec_add. now rewrite zip_with_length. }
  rewrite (vdivide_null_den (inner_prod (kr k) s) (inner_prod (prod (A L) p) p))
    by (apply inner_prod_null; now apply prod_null).
  assert (Hgen : forall x q : vector,
            length x <= length q ->
            vec_add x (vec_scale NaN q) = map (fun _ => NaN) x).
  { induction x as [|a x IHx]; intros q Hq; [reflexivity|].
    destruct q as [|c q]; [simpl in Hq; lia|].
    cbn. f_equal.
    - now destruct a.
    - apply IHx. simpl in Hq. lia. }
  apply Hgen. lia.
Qed.

End null_facts.

Module kcycle_facts.
Import ViennaCL.

(** [kcycle] at a level that is not the last against its specification,
    with what it leaves untouched. *)
Lemma kcycle_refines
    (prm : level.params) (L N : instance) (rest : list instance)
    (lvl : nat) (rhs x : vref) (st : store) :
  hierarchy_wf (L :: N :: rest) ->
  owned_by_kcycle lvl rhs = false ->
  owned_by_kcycle lvl x = false ->
  length (st (lvl_cg lvl 1)) = nrows (A L) ->
  work_sized (N :: rest) (S lvl) st ->
  let st' := kcycle (L :: N :: rest) lvl prm rhs x st in
  st' x = kx (kcycle_spec (vcycle_spec (L :: N :: rest) prm) L (st rhs) (st x))
  /\ length (st' (lvl_cg lvl 1)) = nrows (A L)
  /\ work_sized (N :: rest) (S lvl) st'
  /\ (forall r, owned_by_kcycle lvl r = false -> vref_eqb r x = false ->
        st' r = st r).
Proof.
  intros Hwf Hrhs Hx Hs Hws st'.
  assert (Hcyc : forall rhs' x' s',
    owned_by_cycle lvl rhs' = false -> owned_by_cycle lvl x' = false ->
    vref_eqb rhs' x' = false ->
    work_sized (N :: rest) (S lvl) s' ->
    cycle (L :: N :: rest) lvl prm rhs' x' s' x'
      = vcycle_spec (L :: N :: rest) prm (s' rhs') (s' x')
    /\ (forall r, owned_by_cycle lvl r = false -> vref_eqb r x' = false ->
          cycle (L :: N :: rest) lvl prm rhs' x' s' r = s' r)
    /\ work_sized (N :: rest) (S lvl) (cycle (L :: N :: rest) lvl prm rhs' x' s')
    /\ length (cycle (L :: N :: rest) lvl prm rhs' x' s' x') = length (s' x')).
  { intros rhs' x' s' H1 H2 H3 H4.
    destruct (cycle_facts.cycle_ok prm (L :: N :: rest) lvl rhs' x' s' Hwf H1 H2 H3 H4)
      as (Ha & Hb & Hc & _).
    split; [exact Ha|]. split; [exact Hb|]. split; [exact Hc|].
    rewrite Ha. cbn [vcycle_spec]. apply cycle_facts.iterate_vcycle_pass_length. }
  destruct (cycle_facts.kcycle_with_ok (cycle (L :: N :: rest) lvl prm)
              (vcycle_spec (L :: N :: rest) prm) L N rest lvl Hcyc x Hx rhs st
              Hrhs Hs Hws)
    as (Kx & _ & _ & Ks & Ksized & Kframe).
  split; [exact Kx|]. split; [exact Ks|]. split; [exact Ksized | exact Kframe].
Qed.

End kcycle_facts.

(** X16.  A K-cycle whose right-hand side holds only zeros (or non-finite
    values) leaves a non-finite value in every entry of [x], whatever [x]
    held and whatever the matrices are: the search direction is zero, so the
    step length is the quotient of zero by zero. *)
Theorem kcycle_zero_rhs_gives_nan
    (prm : level.params) (L N : ViennaCL.instance) (rest : list ViennaCL.instance)
    (lvl : nat) (rhs x : ViennaCL.vref) (st : ViennaCL.store) :
  ViennaCL.hierarchy_wf (L :: N :: rest) ->
  ViennaCL.owned_by_kcycle lvl rhs = false ->
  ViennaCL.owned_by_kcycle lvl x = false ->
  length (st (ViennaCL.lvl_cg lvl 1)) = nrows (ViennaCL.A L) ->
  ViennaCL.work_sized (N :: rest) (S lvl) st ->
  all_null (st rhs) = true ->
  length (st x) <= nrows (ViennaCL.A L) ->
  ViennaCL.kcycle (L :: N :: rest) lvl prm rhs x st x = map (fun _ => NaN) (st x).
Proof.
  intros Hwf Hrhs Hx Hs Hws Hnull Hlen.
  destruct (kcycle_facts.kcycle_refines prm L N rest lvl rhs x st
              Hwf Hrhs Hx Hs Hws) as (Kx & _).
  cbv zeta in Kx. rewrite Kx. unfold ViennaCL.kcycle_spec.
  set (V := ViennaCL.vcycle_spec (L :: N :: rest) prm).
  assert (HV : forall b y, all_null b = true -> all_null y = true ->
                           all_null (V b y) = true)
    by (apply null_facts.vcycle_spec_null).
  assert (HVl : forall b y, length (V b y) = length y).
  { intros b y. unfold V. cbn [ViennaCL.vcycle_spec].
    apply cycle_facts.iterate_vcycle_pass_length. }
  set (start := {| ViennaCL.kx := st x; ViennaCL.kr := st rhs;
                   ViennaCL.kp := []; ViennaCL.krho := zero |}).
  destruct (null_facts.kcycle_step_null V L true start HV Hnull ltac:(discriminate))
    as (_ & H1r & H1p).
  pose proof (null_facts.kcycle_step_nan V L true start HV HVl Hnull
                ltac:(discriminate) Hlen) as E1.
  rewrite (null_facts.kcycle_step_nan V L false _ HV HVl H1r (fun _ => H1p)).
  - rewrite E1, map_map. reflexivity.
  - rewrite E1, length_map. exact Hlen.
Qed.

Lemma kcycle_zero_rhs_gives_nan_witness :
  ViennaCL.kcycle [Example.level1; Example.level2] 1 Example.cycle_params
                  (ViennaCL.lvl_f 1) (ViennaCL.lvl_u 1) Example.initial_store
                  (ViennaCL.lvl_u 1)
  = map (fun _ => NaN) (Example.initial_store (ViennaCL.lvl_u 1)).
Proof.
  refine (kcycle_zero_rhs_gives_nan Example.cycle_params
            Example.level1 Example.level2 [] 1
            (ViennaCL.lvl_f 1) (ViennaCL.lvl_u 1) Example.initial_store
            _ eq_refl eq_refl eq_refl _ eq_refl _).
  - vm_compute. repeat split; first [reflexivity | now left | now right].
  - vm_compute. repeat split; try reflexivity; intros; first [reflexivity | discriminate].
  - vm_compute. lia.
Defined.

(** X17.  A K-cycle at a level that is not the last writes [x], the four
    auxiliary vectors of its level and what the V-cycle of that level
    owns, and nothing else; the auxiliary vector [s] and the work vectors
    below keep their sizes, so the K-cycle can be run again. *)
Theorem kcycle_touches_only_its_vectors
    (prm : level.params) (L N : ViennaCL.instance) (rest : list ViennaCL.instance)
    (lvl : nat) (rhs x : ViennaCL.vref) (st : ViennaCL.store) :
  ViennaCL.hierarchy_wf (L :: N :: rest) ->
  ViennaCL.owned_by_kcycle lvl rhs = false ->
  ViennaCL.owned_by_kcycle lvl x = false ->
  length (st (ViennaCL.lvl_cg lvl 1)) = nrows (ViennaCL.A L) ->
  ViennaCL.work_sized (N :: rest) (S lvl) st ->
  let st' := ViennaCL.kcycle (L :: N :: rest) lvl prm rhs x st in
  (forall r, ViennaCL.owned_by_kcycle lvl r = false ->
             ViennaCL.vref_eqb r x = false -> st' r = st r)
  /\ length (st' x) = length (st x)
  /\ length (st' (ViennaCL.lvl_cg lvl 1)) = nrows (ViennaCL.A L)
  /\ ViennaCL.work_sized (N :: rest) (S lvl) st'.
Proof.
  intros Hwf Hrhs Hx Hs Hws st'.
  destruct (kcycle_facts.kcycle_refines prm L N rest lvl rhs x st
              Hwf Hrhs Hx Hs Hws) as (Kx & Ks & Ksized & Kframe).
  split; [exact Kframe|]. split; [|split; [exact Ks | exact Ksized]].
  etransitivity; [exact (f_equal (@length _) Kx)|].
  unfold ViennaCL.kcycle_spec.
  now rewrite !(proj1 (cycle_facts.kcycle_step_lengths _ _ _ _)).
Qed.

Lemma kcycle_touches_only_its_vectors_witness :
  length (ViennaCL.kcycle [Example.level1; Example.level2] 1 Example.cycle_params
            (ViennaCL.lvl_f 1) (ViennaCL.lvl_u 1) Example.initial_store
            (ViennaCL.lvl_u 1))
  = length (Example.initial_store (ViennaCL.lvl_u 1)).
Proof.
  refine (proj1 (proj2 (kcycle_touches_only_its_vectors Example.cycle_params
                          Example.level1 Example.level2 [] 1
                          (ViennaCL.lvl_f 1) (ViennaCL.lvl_u 1) Example.initial_store
                          _ eq_refl eq_refl eq_refl _))).
  - vm_compute. repeat split; first [reflexivity | now left | now right].
  - vm_compute. repeat split; try reflexivity; intros; first [reflexivity | discriminate].
Defined.

(** X18.  On a hierarchy whose levels below the finest come from the two
    constructors, a cycle started on the freshly built levels with the
    caller's [rhs] and [x] leaves in [x] the V-cycle of the specification
    and leaves [rhs] as it was: the constructors give the work vectors the
    sizes the cycle relies on. *)
Theorem cycle_on_constructed_levels
    (prm : level.params) (L N : ViennaCL.instance) (rest : list ViennaCL.instance)
    (rhs x : vector) :
  ViennaCL.hierarchy_wf (L :: N :: rest) ->
  Forall (ViennaCL.constructed prm) (N :: rest) ->
  let h := L :: N :: rest in
  let st := ViennaCL.load h rhs x in
  ViennaCL.cycle h 0 prm (ViennaCL.caller 0) (ViennaCL.caller 1) st (ViennaCL.caller 1)
    = ViennaCL.vcycle_spec h prm rhs x
  /\ ViennaCL.cycle h 0 prm (ViennaCL.caller 0) (ViennaCL.caller 1) st (ViennaCL.caller 0)
    = rhs.
Proof.
  intros Hwf Hbuilt h st.
  assert (Hws : ViennaCL.work_sized (N :: rest) 1 st).
  { apply (construction_facts.load_work_sized h rhs x (N :: rest) [L] eq_refl).
    intros M HM. rewrite Forall_forall in Hbuilt.
    destruct (Hbuilt M HM) as [(a & p & r & n & Hn & ->)|(a & ai & n & ->)].
    - destruct (construction_facts.make_level_sized a p r prm n Hn)
        as (_ & Hu & _ & Hcg).
      split; assumption.
    - destruct (construction_facts.make_coarsest_sized a ai prm n)
        as (_ & Hu & Hk & _).
      split; [exact Hu|]. intros E. congruence. }
  destruct (cycle_facts.cycle_ok prm h 0 (ViennaCL.caller 0) (ViennaCL.caller 1) st
              Hwf eq_refl eq_refl eq_refl Hws) as (Hv & Hf & _).
  split; [exact Hv|]. exact (Hf (ViennaCL.caller 0) eq_refl eq_refl).
Qed.

Lemma cycle_on_constructed_levels_witness :
  let h := [Example.level0; Example.level1; Example.level2] in
  ViennaCL.cycle h 0 Example.cycle_params (ViennaCL.caller 0) (ViennaCL.caller 1)
                 (ViennaCL.load h [one; one; one; one] (zeros 4)) (ViennaCL.caller 1)
  = ViennaCL.vcycle_spec h Example.cycle_params [one; one; one; one] (zeros 4).
Proof.
  refine (proj1 (cycle_on_constructed_levels Example.cycle_params
                   Example.level0 Example.level1 [Example.level2]
                   [one; one; one; one] (zeros 4) _ _)).
  - vm_compute. repeat split; first [reflexivity | now left | now right].
  - apply Forall_cons.
    + left. exists Example.A1, (fst (Example.transfer Example.A1)),
        (snd (Example.transfer Example.A1)), 1. split; [discriminate | reflexivity].
    + apply Forall_cons; [|apply Forall_nil].
      right. exists Example.A2, Example.A2_inverse, 2. reflexivity.
Defined.

Lemma kcycle_gate_witness :
  ViennaCL.kcycle_enabled
    (ViennaCL.make_level Example.A1 (fst (Example.transfer Example.A1))
                         (snd (Example.transfer Example.A1)) Example.cycle_params 1)
  = true.
Proof.
  apply (proj1 (kcycle_gate Example.cycle_params 1)).
  repeat split; discriminate.
Defined.
